(** * E-commerce dashboard backend (app.py): a shallow embedding

    The Flask application answers six routes.  Five of them run one fixed
    SELECT statement through [query_db] and reshape the rows into parallel
    JSON arrays; one of them also calls the Open-Meteo archive.  The
    embedding has three layers:

    - [Sql]: the relational store and the meaning of the five SELECT
      statements that appear in app.py, as executable list programs;
    - [Runtime]: Python exceptions, the log, sqlite3 connections and the
      [requests] call, as a state-and-exception monad over a [world];
    - [App]: the functions of app.py, in the order of the source. *)

From Stdlib Require Import ZArith List String Ascii Bool Lia Sorted Permutation.
Import ListNotations.
Local Open Scope Z_scope.
Set Warnings "-register-all".

(* ===================================================================== *)
(** * The relational store *)
(* ===================================================================== *)

Module Sql.

(** A value as the sqlite3 module hands it to Python: [None], an [int] or a
    [str]. *)
Inductive value :=
| Null
| Integer (z : Z)
| Text (s : string).

(** A result row is a Python tuple of column values. *)
Definition row := list value.

Definition of_int (x : option Z) : value :=
  match x with Some z => Integer z | None => Null end.

Definition of_text (x : option string) : value :=
  match x with Some s => Text s | None => Null end.

(** Modelled from the spec: the schema of CCL_ecommerce.db (the database file
    and its CREATE TABLE statements are not part of the source tree).  The
    columns are those the statements of app.py name.  The identifier column
    of a table is its INTEGER PRIMARY KEY, hence never NULL; every other
    column is nullable. *)
Record order := { order_id : Z; order_date : option string }.
Record product := { product_id : Z; product_name : option string }.
Record stock := { stock_product_id : option Z; quantity : option Z }.
Record order_detail :=
  { detail_order_id : option Z;
    detail_product_id : option Z;
    quantity_ordered : option Z }.
Record payment := { payment_id : Z; payment_method_id : option Z }.
Record payment_method := { method_id : Z; method_name : option string }.

Record database :=
  { orders : list order;
    products : list product;
    stock_level : list stock;
    order_details : list order_detail;
    payments : list payment;
    payment_methods : list payment_method }.

(** ** Comparison of column values

    NULL sorts before every other value; TEXT is compared byte by byte (the
    BINARY collation), INTEGER numerically. *)
Definition nullable_leb {A} (leb : A -> A -> bool) (x y : option A) : bool :=
  match x, y with
  | None, _ => true
  | Some _, None => false
  | Some a, Some b => leb a b
  end.

Definition text_leb : option string -> option string -> bool :=
  nullable_leb String.leb.
Definition int_leb : option Z -> option Z -> bool := nullable_leb Z.leb.

(** GROUP BY puts all NULLs in one group. *)
Definition nullable_eqb {A} (eqb : A -> A -> bool) (x y : option A) : bool :=
  match x, y with
  | None, None => true
  | Some a, Some b => eqb a b
  | _, _ => false
  end.

Definition text_eqb : option string -> option string -> bool :=
  nullable_eqb String.eqb.

(** [a = b] in an ON clause is not satisfied when the left side is NULL. *)
Definition references (fk : option Z) (pk : Z) : bool :=
  match fk with Some i => i =? pk | None => false end.

(** ** Relational operators *)

(** [l JOIN r ON on]: a nested loop, outer table first. *)
Definition join {A B} (on : A -> B -> bool) (l : list A) (r : list B)
  : list (A * B) :=
  flat_map (fun a => map (pair a) (filter (on a) r)) l.

Section GroupBy.
Context {R K S : Type}.
Variable key : R -> K.
Variable same : K -> K -> bool.
Variable init : S.
Variable step : S -> R -> S.

(** One input row: step the aggregate of its group, or open a new group
    after the existing ones. *)
Fixpoint feed (r : R) (groups : list (K * S)) : list (K * S) :=
  match groups with
  | [] => [(key r, step init r)]
  | (k, s) :: rest =>
      if same (key r) k then (k, step s r) :: rest
      else (k, s) :: feed r rest
  end.

Definition group_by (rows : list R) : list (K * S) :=
  fold_left (fun groups r => feed r groups) rows [].
End GroupBy.

Section OrderBy.
Context {R : Type}.
Variable leb : R -> R -> bool.

Fixpoint place (r : R) (sorted : list R) : list R :=
  match sorted with
  | [] => [r]
  | h :: t => if leb r h then r :: h :: t else h :: place r t
  end.

(** ORDER BY as a stable insertion sort.  The order among rows with equal
    sort keys is not fixed by SQL; this is one admissible choice. *)
Definition order_by (rows : list R) : list R := fold_right place [] rows.
End OrderBy.

Definition limit {R} (n : nat) (rows : list R) : list R := firstn n rows.

(** ** Aggregate functions *)

(** COUNT(col): the number of rows whose [col] is not NULL. *)
Definition count_step {R X} (col : R -> option X) (n : Z) (r : R) : Z :=
  match col r with Some _ => n + 1 | None => n end.

(** SUM(col) over 64-bit integers: NULL inputs are skipped, the result is
    NULL when no input was seen, and the statement fails with
    "integer overflow" once a partial sum leaves the 64-bit range. *)
Inductive sum_state :=
| SumNull
| SumInt (total : Z)
| SumOverflow.

Definition in_int64 (z : Z) : bool :=
  (- 2 ^ 63 <=? z) && (z <? 2 ^ 63).

Definition checked (z : Z) : sum_state :=
  if in_int64 z then SumInt z else SumOverflow.

Definition sum_step {R} (col : R -> option Z) (acc : sum_state) (r : R)
  : sum_state :=
  match col r, acc with
  | None, _ => acc
  | Some _, SumOverflow => SumOverflow
  | Some x, SumNull => checked x
  | Some x, SumInt t => checked (t + x)
  end.

(** MIN(col) and MAX(col) skip NULLs and are NULL over no input. *)
Definition min_step (acc : option string) (v : option string)
  : option string :=
  match v, acc with
  | None, _ => acc
  | Some x, None => Some x
  | Some x, Some m => if String.ltb x m then Some x else Some m
  end.

Definition max_step (acc : option string) (v : option string)
  : option string :=
  match v, acc with
  | None, _ => acc
  | Some x, None => Some x
  | Some x, Some m => if String.ltb m x then Some x else Some m
  end.

(** ** The five statements of app.py *)

Inductive statement :=
| SelectDateRange          (* temperature_over_time, lines 65-68 *)
| SelectOrdersOverTime     (* orders_over_time, lines 96-101 *)
| SelectLowStock           (* low_stock_levels, lines 115-120 *)
| SelectMostPopular        (* most_popular_products, lines 134-141 *)
| SelectPaymentPopularity. (* payment_method_popularity, lines 160-166 *)

(** SELECT MIN(order_date), MAX(order_date) FROM orders;
    an aggregate without GROUP BY yields exactly one row. *)
Definition date_range (db : database) : option string * option string :=
  let dates := map order_date (orders db) in
  (fold_left min_step dates None, fold_left max_step dates None).

(** SELECT order_date, COUNT(order_id) AS num_orders FROM orders
    GROUP BY order_date ORDER BY order_date; *)
Definition orders_per_date (db : database) : list (option string * Z) :=
  order_by (fun a b => text_leb (fst a) (fst b))
    (group_by order_date text_eqb 0
       (count_step (fun o => Some (order_id o)))
       (orders db)).

(** SELECT p.product_name, s.quantity FROM stock_level s
    JOIN products p ON s.product_id = p.product_id
    ORDER BY s.quantity ASC; *)
Definition stock_by_quantity (db : database)
  : list (option string * option Z) :=
  order_by (fun a b => int_leb (snd a) (snd b))
    (map (fun sp => (product_name (snd sp), quantity (fst sp)))
       (join (fun s p => references (stock_product_id s) (product_id p))
          (stock_level db) (products db))).

(** SELECT p.product_id, p.product_name, SUM(od.quantity_ordered) AS
    total_quantity FROM order_details od
    JOIN products p ON od.product_id = p.product_id
    GROUP BY p.product_id, p.product_name
    ORDER BY total_quantity DESC LIMIT 10; *)
Definition product_key (dp : order_detail * product) : Z * option string :=
  (product_id (snd dp), product_name (snd dp)).

Definition product_key_eqb (a b : Z * option string) : bool :=
  (fst a =? fst b) && text_eqb (snd a) (snd b).

Definition product_sums (db : database)
  : list ((Z * option string) * sum_state) :=
  group_by product_key product_key_eqb SumNull
    (sum_step (fun dp => quantity_ordered (fst dp)))
    (join (fun d p => references (detail_product_id d) (product_id p))
       (order_details db) (products db)).

(** The value of SUM when the group is complete. *)
Fixpoint finalize (groups : list ((Z * option string) * sum_state))
  : option (list (Z * option string * option Z)) :=
  match groups with
  | [] => Some []
  | (k, s) :: rest =>
      match s, finalize rest with
      | SumOverflow, _ => None
      | _, None => None
      | SumNull, Some out => Some ((k, None) :: out)
      | SumInt t, Some out => Some ((k, Some t) :: out)
      end
  end.

Definition most_popular (db : database)
  : option (list (Z * option string * option Z)) :=
  match finalize (product_sums db) with
  | None => None
  | Some totals =>
      Some (limit 10 (order_by (fun a b => int_leb (snd b) (snd a)) totals))
  end.

(** SELECT pm.method_name, COUNT(p.payment_id) AS transaction_count
    FROM payments p JOIN payment_methods pm ON p.method_id = pm.method_id
    GROUP BY pm.method_name ORDER BY transaction_count DESC; *)
Definition payments_per_method (db : database) : list (option string * Z) :=
  order_by (fun a b => snd b <=? snd a)
    (group_by (fun pm => method_name (snd pm)) text_eqb 0
       (count_step (fun pm => Some (payment_id (fst pm))))
       (join (fun p m => references (payment_method_id p) (method_id m))
          (payments db) (payment_methods db))).

(** What cursor.execute followed by cursor.fetchall returns on a readable
    database: the rows as tuples, or the message of the sqlite3.Error. *)
Definition run (q : statement) (db : database) : list row + string :=
  match q with
  | SelectDateRange =>
      let '(lo, hi) := date_range db in inl [[of_text lo; of_text hi]]
  | SelectOrdersOverTime =>
      inl (map (fun r => [of_text (fst r); Integer (snd r)])
             (orders_per_date db))
  | SelectLowStock =>
      inl (map (fun r => [of_text (fst r); of_int (snd r)])
             (stock_by_quantity db))
  | SelectMostPopular =>
      match most_popular db with
      | Some rows =>
          inl (map (fun r => [Integer (fst (fst r)); of_text (snd (fst r));
                              of_int (snd r)]) rows)
      | None => inr "integer overflow"%string
      end
  | SelectPaymentPopularity =>
      inl (map (fun r => [of_text (fst r); Integer (snd r)])
             (payments_per_method db))
  end.

End Sql.

(* ===================================================================== *)
(** * The Python runtime the application runs in *)
(* ===================================================================== *)

Module Runtime.
Import Sql.

(** A JSON document.  A Python float (the temperatures of the archive) is
    carried by its literal and never computed with. *)
Inductive json :=
| JNull
| JInt (z : Z)
| JFloat (literal : string)
| JStr (s : string)
| JArr (items : list json)
| JObj (fields : list (string * json)).

Definition json_of_value (v : value) : json :=
  match v with
  | Null => JNull
  | Integer z => JInt z
  | Text s => JStr s
  end.

Inductive payload :=
| Json (doc : json)
| Page (template : string).

Record response := { status : Z; body : payload }.

(** The exceptions that can occur in app.py.  All of them are instances of
    [Exception]; only [SqliteError] is an instance of [sqlite3.Error]. *)
Inductive exn :=
| SqliteError (msg : string)
| HTTPException (code : Z) (description : string)
| RequestException (msg : string)
| HTTPError (status_code : Z)
| JSONDecodeError
| IndexError
| ValueError.

Definition is_sqlite_error (e : exn) : bool :=
  match e with SqliteError _ => true | _ => false end.

Definition is_exception (e : exn) : bool := true.

(** One call of logging.error(fmt, e). *)
Record log_record := { fmt : string; arg : exn }.

Record connection := { is_open : bool; in_transaction : bool }.

(** The database file as sqlite3 finds it. *)
Inductive storage_state :=
| Serving (db : database)
| CannotOpen (msg : string)    (* sqlite3.connect raises *)
| CannotQuery (msg : string).  (* connect succeeds, every statement fails:
                                  a missing file is created empty and has
                                  no tables *)

(** The query string of the archive call, with the keys of [params]. *)
Record api_request :=
  { endpoint : string;
    latitude : string;
    longitude : string;
    start_date : value;
    end_date : value;
    daily : string;
    timezone : string }.

Record http_response := { status_code : Z; document : option json }.

(** What the archive does with a request: no answer at all, or a status
    code and a body, which parses as JSON or does not. *)
Inductive api_outcome :=
| Unreachable (msg : string)
| Responded (answer : http_response).

Record world :=
  { storage : storage_state;
    archive : api_request -> api_outcome;
    log : list log_record;
    connections : list connection;
    sent : list api_request }.

Definition with_log (w : world) (l : list log_record) : world :=
  {| storage := storage w; archive := archive w; log := l;
     connections := connections w; sent := sent w |}.

Definition with_connections (w : world) (c : list connection) : world :=
  {| storage := storage w; archive := archive w; log := log w;
     connections := c; sent := sent w |}.

Definition with_sent (w : world) (s : list api_request) : world :=
  {| storage := storage w; archive := archive w; log := log w;
     connections := connections w; sent := s |}.

(** ** Computations that change the world and may raise *)

Inductive outcome (A : Type) :=
| Return (a : A)
| Raise (e : exn).
Arguments Return {A} a.
Arguments Raise {A} e.

Definition M (A : Type) : Type := world -> outcome A * world.

Definition ret {A} (a : A) : M A := fun w => (Return a, w).

Definition raise {A} (e : exn) : M A := fun w => (Raise e, w).

Definition bind {A B} (m : M A) (k : A -> M B) : M B :=
  fun w =>
    match m w with
    | (Return a, w') => k a w'
    | (Raise e, w') => (Raise e, w')
    end.

Declare Scope py_scope.
Delimit Scope py_scope with py.
Notation "x <- m ;; k" := (bind m (fun x => k))
  (at level 61, m at next level, right associativity) : py_scope.
Notation "m ;; k" := (bind m (fun _ => k))
  (at level 61, right associativity) : py_scope.
Local Open Scope py_scope.

(** try: [m]  except <class> as e: [handler e] *)
Definition try_except {A} (m : M A) (class : exn -> bool)
  (handler : exn -> M A) : M A :=
  fun w =>
    match m w with
    | (Return a, w') => (Return a, w')
    | (Raise e, w') => if class e then handler e w' else (Raise e, w')
    end.

(** [xs[i]] *)
Definition item {A} (xs : list A) (i : nat) : M A :=
  match nth_error xs i with
  | Some x => ret x
  | None => raise IndexError
  end.

(** [[f x for x in xs]] *)
Fixpoint comprehension {A B} (f : A -> M B) (xs : list A) : M (list B) :=
  match xs with
  | [] => ret []
  | x :: rest =>
      y <- f x ;;
      ys <- comprehension f rest ;;
      ret (y :: ys)
  end.

(** [a, b = t] *)
Definition unpack2 {A} (t : list A) : M (A * A) :=
  match t with
  | [a; b] => ret (a, b)
  | _ => raise ValueError
  end.

(** ** logging *)

Definition logging_error (format : string) (e : exn) : M unit :=
  fun w => (Return tt, with_log w (log w ++ [{| fmt := format; arg := e |}])).

(** ** sqlite3 *)

Fixpoint update {A} (i : nat) (f : A -> A) (xs : list A) : list A :=
  match xs, i with
  | [], _ => []
  | x :: rest, O => f x :: rest
  | x :: rest, S j => x :: update j f rest
  end.

(** sqlite3.connect(DATABASE): a new open connection, named by its index. *)
Definition connect : M nat :=
  fun w =>
    match storage w with
    | CannotOpen msg => (Raise (SqliteError msg), w)
    | _ =>
        (Return (List.length (connections w)),
         with_connections w
           (connections w ++ [{| is_open := true; in_transaction := false |}]))
    end.

(** cursor.execute(query, args) with no arguments; a SELECT opens no
    transaction.  The cursor holds the rows. *)
Definition execute (conn : nat) (query : statement) : M (list row) :=
  fun w =>
    match storage w with
    | Serving db =>
        match run query db with
        | inl rows => (Return rows, w)
        | inr msg => (Raise (SqliteError msg), w)
        end
    | CannotOpen msg | CannotQuery msg => (Raise (SqliteError msg), w)
    end.

Definition fetchall (cursor : list row) : M (list row) := ret cursor.

Definition end_transaction (c : connection) : connection :=
  {| is_open := is_open c; in_transaction := false |}.

Definition commit (conn : nat) : M unit :=
  fun w =>
    (Return tt,
     with_connections w (update conn end_transaction (connections w))).

Definition rollback (conn : nat) : M unit :=
  fun w =>
    (Return tt,
     with_connections w (update conn end_transaction (connections w))).

(** Connection.close(), which app.py never calls. *)
Definition close (conn : nat) : M unit :=
  fun w =>
    (Return tt,
     with_connections w
       (update conn
          (fun c => {| is_open := false; in_transaction := in_transaction c |})
          (connections w))).

(** with sqlite3.connect(DATABASE) as conn: [block conn]

    A sqlite3 connection used as a context manager commits when the block
    ends normally and rolls back when it raises; in both cases the
    exception, if any, propagates, and the connection is left as it is. *)
Definition with_connect {A} (block : nat -> M A) : M A :=
  conn <- connect ;;
  fun w =>
    match block conn w with
    | (Return a, w') => (_ <- commit conn ;; ret a) w'
    | (Raise e, w') => (_ <- rollback conn ;; raise e) w'
    end.

(** ** requests *)

(** requests.get(url, params=params): the request goes out, and the
    archive decides what comes back. *)
Definition requests_get (request : api_request) : M http_response :=
  fun w =>
    let w' := with_sent w (sent w ++ [request]) in
    match archive w request with
    | Unreachable msg => (Raise (RequestException msg), w')
    | Responded answer => (Return answer, w')
    end.

(** response.raise_for_status(): raises for 4xx and 5xx. *)
Definition raise_for_status (r : http_response) : M unit :=
  if (400 <=? status_code r) && (status_code r <? 600)
  then raise (HTTPError (status_code r))
  else ret tt.

(** response.json() *)
Definition response_json (r : http_response) : M json :=
  match document r with
  | Some doc => ret doc
  | None => raise JSONDecodeError
  end.

(** ** flask *)

Definition abort {A} (code : Z) (description : string) : M A :=
  raise (HTTPException code description).

Definition jsonify (doc : json) : response :=
  {| status := 200; body := Json doc |}.

Definition render_template (name : string) : M response :=
  ret {| status := 200; body := Page name |}.

End Runtime.

(* ===================================================================== *)
(** * app.py *)
(* ===================================================================== *)

Module App.
Import Sql Runtime.
Local Open Scope py_scope.
Local Open Scope string_scope.

(** Lines 29-38. *)
Definition query_db (query : statement) : M (list row) :=
  try_except
    (with_connect (fun conn =>
       cursor <- execute conn query ;;
       results <- fetchall cursor ;;
       ret results))
    is_sqlite_error
    (fun e =>
       logging_error "Database error: %s" e ;;
       abort 500 "Database error").

(** Lines 46-52: the two registered error handlers. *)
Definition not_found (error : exn) : response :=
  {| status := 404; body := Json (JObj [("error", JStr "Not found")]) |}.

Definition internal_error (error : exn) : response :=
  {| status := 500;
     body := Json (JObj [("error", JStr "Internal server error")]) |}.

(** Lines 56-58. *)
Definition index : M response := render_template "dashboard.html".

(** Lines 62-89. *)
Definition API_ENDPOINT : string :=
  "https://archive-api.open-meteo.com/v1/archive".

Definition params (first last : value) : api_request :=
  {| endpoint := API_ENDPOINT;
     latitude := "50.6053";
     longitude := "-3.5952";
     start_date := first;
     end_date := last;
     daily := "temperature_2m_max";
     timezone := "GMT" |}.

Definition temperature_over_time : M response :=
  try_except
    (result <- query_db SelectDateRange ;;
     first_row <- item result 0 ;;
     dates <- unpack2 first_row ;;
     response <- requests_get (params (fst dates) (snd dates)) ;;
     raise_for_status response ;;
     doc <- response_json response ;;
     ret (jsonify doc))
    is_exception
    (fun e =>
       logging_error "Error in /api/temperature_over_time: %s" e ;;
       abort 500 "Error fetching temperature data.").

(** [[row[i] for row in result]], ready for jsonify. *)
Definition column (i : nat) (result : list row) : M (list json) :=
  comprehension (fun row => v <- item row i ;; ret (json_of_value v)) result.

(** Lines 93-109. *)
Definition orders_over_time : M response :=
  try_except
    (result <- query_db SelectOrdersOverTime ;;
     dates <- column 0 result ;;
     counts <- column 1 result ;;
     ret (jsonify (JObj [("dates", JArr dates); ("counts", JArr counts)])))
    is_exception
    (fun e =>
       logging_error "Error fetching orders over time: %s" e ;;
       abort 500 "Error fetching orders over time").

(** Lines 113-128. *)
Definition low_stock_levels : M response :=
  try_except
    (result <- query_db SelectLowStock ;;
     products <- column 0 result ;;
     quantities <- column 1 result ;;
     ret (jsonify (JObj [("products", JArr products);
                         ("quantities", JArr quantities)])))
    is_exception
    (fun e =>
       logging_error "Error fetching low stock levels: %s" e ;;
       abort 500 "Error fetching low stock levels").

(** Lines 132-154. *)
Definition most_popular_products : M response :=
  try_except
    (result <- query_db SelectMostPopular ;;
     product_ids <- column 0 result ;;
     product_names <- column 1 result ;;
     totals <- column 2 result ;;
     ret (jsonify (JObj [("product_ids", JArr product_ids);
                         ("product_names", JArr product_names);
                         ("totals", JArr totals)])))
    is_exception
    (fun e =>
       logging_error "Error fetching most popular products: %s" e ;;
       abort 500 "Error fetching most popular products").

(** Lines 158-174. *)
Definition payment_method_popularity : M response :=
  try_except
    (result <- query_db SelectPaymentPopularity ;;
     methods <- column 0 result ;;
     counts <- column 1 result ;;
     ret (jsonify (JObj [("methods", JArr methods); ("counts", JArr counts)])))
    is_exception
    (fun e =>
       logging_error "Error fetching payment method popularity: %s" e ;;
       abort 500 "Error fetching payment method popularity").

(** ** The routes registered with @app.route *)

Inductive route :=
| Index
| TemperatureOverTime
| OrdersOverTime
| LowStockLevels
| MostPopularProducts
| PaymentMethodPopularity.

Definition rule (r : route) : string :=
  match r with
  | Index => "/"
  | TemperatureOverTime => "/api/temperature_over_time"
  | OrdersOverTime => "/api/orders_over_time"
  | LowStockLevels => "/api/low_stock_levels"
  | MostPopularProducts => "/api/most_popular_products"
  | PaymentMethodPopularity => "/api/payment_method_popularity"
  end.

Definition view (r : route) : M response :=
  match r with
  | Index => index
  | TemperatureOverTime => temperature_over_time
  | OrdersOverTime => orders_over_time
  | LowStockLevels => low_stock_levels
  | MostPopularProducts => most_popular_products
  | PaymentMethodPopularity => payment_method_popularity
  end.

Definition routes : list route :=
  [Index; TemperatureOverTime; OrdersOverTime; LowStockLevels;
   MostPopularProducts; PaymentMethodPopularity].

Definition api_routes : list route :=
  [TemperatureOverTime; OrdersOverTime; LowStockLevels;
   MostPopularProducts; PaymentMethodPopularity].

Definition sql_only_routes : list route :=
  [OrdersOverTime; LowStockLevels; MostPopularProducts;
   PaymentMethodPopularity].

(** The URL map of a GET request: the view of the rule that equals the
    path, or werkzeug's NotFound. *)
Definition match_request (path : string) : option route :=
  find (fun r => rule r =? path) routes.

Definition dispatch_request (path : string) : M response :=
  match match_request path with
  | Some r => view r
  | None => abort 404 "The requested URL was not found on the server."
  end.

(** Flask hands an HTTPException to the handler registered for its code;
    an exception of any other class reaches the 500 handler. *)
Definition handle_exception (e : exn) : response :=
  match e with
  | HTTPException code description =>
      if (code =? 404)%Z then not_found e
      else if (code =? 500)%Z then internal_error e
      else {| status := code; body := Page description |}
  | _ => internal_error e
  end.

(** One GET request, from the path to the response. *)
Definition serve (path : string) (w : world) : response * world :=
  match dispatch_request path w with
  | (Return r, w') => (r, w')
  | (Raise e, w') => (handle_exception e, w')
  end.

End App.

(* ===================================================================== *)
(** * Vocabulary of the properties *)
(* ===================================================================== *)

Import Sql Runtime App.
Local Open Scope string_scope.

(** The body of every response made by [internal_error]. *)
Definition server_error : payload :=
  Json (JObj [("error", JStr "Internal server error")]).

(** A connection as sqlite3.connect returns it. *)
Definition opened : connection :=
  {| is_open := true; in_transaction := false |}.

(** The record [query_db] writes for a sqlite3.Error. *)
Definition database_error (msg : string) : log_record :=
  {| fmt := "Database error: %s"; arg := SqliteError msg |}.

(** The record [temperature_over_time] writes for an exception. *)
Definition temperature_record (e : exn) : log_record :=
  {| fmt := "Error in /api/temperature_over_time: %s"; arg := e |}.

(** A computation that leaves the database as it found it. *)
Definition read_only {A} (m : M A) : Prop :=
  forall w, storage (snd (m w)) = storage w.

(** The statement a route runs through [query_db]. *)
Definition query_of (r : route) : option statement :=
  match r with
  | Index => None
  | TemperatureOverTime => Some SelectDateRange
  | OrdersOverTime => Some SelectOrdersOverTime
  | LowStockLevels => Some SelectLowStock
  | MostPopularProducts => Some SelectMostPopular
  | PaymentMethodPopularity => Some SelectPaymentPopularity
  end.

(** The message of the sqlite3.Error that the storage layer raises for a
    statement, when it raises one. *)
Definition failure (q : statement) (s : storage_state) : option string :=
  match s with
  | Serving db =>
      match run q db with
      | inl _ => None
      | inr msg => Some msg
      end
  | CannotOpen msg | CannotQuery msg => Some msg
  end.

(** What the archive call comes to: the document that is relayed, or the
    exception of one of the three failures (no answer, an error status, a
    body that is not JSON). *)
Definition call_result (o : api_outcome) : json + exn :=
  match o with
  | Unreachable msg => inr (RequestException msg)
  | Responded answer =>
      if ((400 <=? status_code answer) && (status_code answer <? 600))%Z
      then inr (HTTPError (status_code answer))
      else match document answer with
           | None => inr JSONDecodeError
           | Some doc => inl doc
           end
  end.

(** Every string that occurs as a value in a JSON document. *)
Fixpoint texts (j : json) : list string :=
  match j with
  | JStr s => [s]
  | JArr items => flat_map texts items
  | JObj fields => flat_map (fun kv => texts (snd kv)) fields
  | _ => []
  end.

Definition payload_texts (p : payload) : list string :=
  match p with
  | Json doc => texts doc
  | Page _ => []
  end.

(** The lengths of the arrays of a JSON object. *)
Definition array_lengths (p : payload) : list nat :=
  match p with
  | Json (JObj fields) =>
      flat_map (fun kv => match snd kv with
                          | JArr items => [List.length items]
                          | _ => []
                          end) fields
  | _ => []
  end.

Definition all_equal (ns : list nat) : Prop :=
  forall a b, In a ns -> In b ns -> a = b.

Definition json_text (x : option string) : json := json_of_value (of_text x).
Definition json_int (x : option Z) : json := json_of_value (of_int x).

Definition ascending (dates : list (option string)) : Prop :=
  StronglySorted (fun a b => text_leb a b = true) dates.


Definition sum_ints (ns : list Z) : Z := fold_right Z.add 0%Z ns.

(** What a list of groups holds for key [k], and what the rows with key
    [k] contribute to an additive aggregate. *)
Definition tally {K} (same : K -> K -> bool) (k : K) (groups : list (K * Z))
  : Z :=
  sum_ints (map snd (filter (fun g => same (fst g) k) groups)).

Definition share {R K} (key : R -> K) (same : K -> K -> bool)
  (weight : R -> Z) (k : K) (rows : list R) : Z :=
  sum_ints (map weight (filter (fun r => same (key r) k) rows)).

(** The number of rows of [orders] whose order_date is [d]. *)
Definition orders_on (db : database) (d : option string) : Z :=
  Z.of_nat (List.length
              (filter (fun o => text_eqb (order_date o) d) (orders db))).

(** payment_methods.method_id is the key the foreign key of payments
    points to: no two rows share it, and every payment names one. *)
Definition method_id_is_key (db : database) : Prop :=
  NoDup (map method_id (payment_methods db)).

Definition payments_reference_methods (db : database) : Prop :=
  forall p, In p (payments db) ->
    exists m, In m (payment_methods db) /\
              payment_method_id p = Some (method_id m).

(** ** Vocabulary of the further properties *)

(** The world once [query_db] has tried to connect: one more open
    connection, unless sqlite3.connect itself raised. *)
Definition after_connect (w : world) : world :=
  match storage w with
  | CannotOpen _ => w
  | _ => with_connections w (connections w ++ [opened])%list
  end.

(** The two records a failing statement leaves in the log: the one of
    [query_db], then the one of the view that caught the abort. *)
Definition failure_records (msg format : string) : list log_record :=
  [database_error msg;
   {| fmt := format; arg := HTTPException 500 "Database error" |}].

(** Two worlds with the same database and the same archive. *)
Definition agree (w1 w2 : world) : Prop :=
  storage w1 = storage w2 /\ archive w1 = archive w2.

(** A computation whose outcome depends on the database and the archive
    only, and which changes neither. *)
Definition steady {A} (m : M A) : Prop :=
  forall w1 w2,
    agree w1 w2 -> fst (m w1) = fst (m w2) /\ agree (snd (m w1)) w1.

(** SUM over a column as SQL defines it: NULLs are skipped, and the sum of
    no value is NULL. *)
Definition add_nullable (x y : option Z) : option Z :=
  match x, y with
  | None, _ => y
  | _, None => x
  | Some a, Some b => Some (a + b)%Z
  end.

Definition sum_of (values : list (option Z)) : option Z :=
  fold_right add_nullable None values.

Definition total_of (s : sum_state) : option Z :=
  match s with
  | SumInt t => Some t
  | _ => None
  end.

(** The quantities of the order lines joined to a product. *)
Definition quantities_ordered (db : database) (product : Z * option string)
  : list (option Z) :=
  map (fun dp => quantity_ordered (fst dp))
    (filter (fun dp => product_key_eqb (product_key dp) product)
       (join (fun d p => references (detail_product_id d) (product_id p))
          (order_details db) (products db))).

(** The number of payments joined to a method of the given name. *)
Definition payments_by (db : database) (name : option string) : Z :=
  Z.of_nat (List.length
    (filter (fun pm => text_eqb (method_name (snd pm)) name)
       (join (fun p m => references (payment_method_id p) (method_id m))
          (payments db) (payment_methods db)))).

Definition ascending_int (quantities : list (option Z)) : Prop :=
  StronglySorted (fun a b => int_leb a b = true) quantities.

Definition descending_count (counts : list Z) : Prop :=
  StronglySorted (fun a b => (b <= a)%Z) counts.

(** The groups after some rows: distinct keys, one for each key seen, each
    holding the fold of [step] over the rows of its key, in their order. *)
Definition grouped {R K S} (key : R -> K) (same : K -> K -> bool) (init : S)
  (step : S -> R -> S) (done : list R) (groups : list (K * S)) : Prop :=
  NoDup (map fst groups) /\
  (forall r, In r done -> In (key r) (map fst groups)) /\
  (forall k s, In (k, s) groups ->
     s = fold_left step (filter (fun r => same (key r) k) done) init).

(** ** Sample data *)

Module Sample.

Definition no_rows : database :=
  {| orders := []; products := []; stock_level := []; order_details := [];
     payments := []; payment_methods := [] |}.

Definition shop : database :=
  {| orders :=
       [ {| order_id := 1; order_date := Some "2024-01-02" |};
         {| order_id := 2; order_date := Some "2024-01-01" |};
         {| order_id := 3; order_date := Some "2024-01-01" |} ];
     products :=
       [ {| product_id := 1; product_name := Some "kettle" |};
         {| product_id := 2; product_name := Some "toaster" |} ];
     stock_level :=
       [ {| stock_product_id := Some 1; quantity := Some 5 |};
         {| stock_product_id := Some 2; quantity := Some 0 |} ];
     order_details :=
       [ {| detail_order_id := Some 1; detail_product_id := Some 1;
            quantity_ordered := Some 3 |};
         {| detail_order_id := Some 2; detail_product_id := Some 2;
            quantity_ordered := Some 4 |};
         {| detail_order_id := Some 3; detail_product_id := Some 1;
            quantity_ordered := Some 2 |} ];
     payments :=
       [ {| payment_id := 1; payment_method_id := Some 1 |};
         {| payment_id := 2; payment_method_id := Some 2 |};
         {| payment_id := 3; payment_method_id := Some 2 |} ];
     payment_methods :=
       [ {| method_id := 1; method_name := Some "card" |};
         {| method_id := 2; method_name := Some "cash" |} ] |}.

(** Eleven products, product [i] ordered [i] times. *)
Definition catalogue : database :=
  let ids := map Z.of_nat (seq 1 11) in
  {| orders := [];
     products :=
       map (fun i => {| product_id := i; product_name := None |}) ids;
     stock_level := [];
     order_details :=
       map (fun i => {| detail_order_id := None;
                        detail_product_id := Some i;
                        quantity_ordered := Some i |}) ids;
     payments := [];
     payment_methods := [] |}.

(** An archive that insists on both dates, as Open-Meteo does, and has a
    one-day answer otherwise. *)
Definition strict_archive (r : api_request) : api_outcome :=
  match start_date r, end_date r with
  | Text _, Text _ =>
      Responded
        {| status_code := 200;
           document :=
             Some (JObj [("daily",
                          JObj [("time", JArr [JStr "2024-01-01"]);
                                ("temperature_2m_max",
                                 JArr [JFloat "9.4"])])]) |}
  | _, _ => Responded {| status_code := 400; document := None |}
  end.

Definition offline (r : api_request) : api_outcome :=
  Unreachable "Connection refused".

(** An archive that answers 304 with a JSON body. *)
Definition not_modified (r : api_request) : api_outcome :=
  Responded {| status_code := 304; document := Some (JObj []) |}.

Definition initial (s : storage_state) (a : api_request -> api_outcome)
  : world :=
  {| storage := s; archive := a; log := []; connections := []; sent := [] |}.

End Sample.

(* ===================================================================== *)
(** * Facts about the relational operators *)
(* ===================================================================== *)

Section OrderByFacts.
Context {R : Type}.
Variable leb : R -> R -> bool.
Hypothesis leb_total : forall a b, leb a b = true \/ leb b a = true.
Hypothesis leb_trans :
  forall a b c, leb a b = true -> leb b c = true -> leb a c = true.

Lemma place_permutation (r : R) (l : list R) :
  Permutation (place leb r l) (r :: l).
Proof.
  induction l as [|h t IH]; simpl.
  - apply Permutation_refl.
  - destruct (leb r h).
    + apply Permutation_refl.
    + apply perm_trans with (h :: r :: t).
      * now apply perm_skip.
      * apply perm_swap.
Qed.

Lemma order_by_permutation (l : list R) : Permutation (order_by leb l) l.
Proof.
  induction l as [|h t IH]; simpl.
  - apply perm_nil.
  - apply perm_trans with (h :: order_by leb t).
    + apply place_permutation.
    + now apply perm_skip.
Qed.

Lemma place_head (a r : R) (l : list R) :
  leb a r = true ->
  HdRel (fun a b => leb a b = true) a l ->
  HdRel (fun a b => leb a b = true) a (place leb r l).
Proof.
  intros Har Hal. destruct l as [|h t]; simpl.
  - now constructor.
  - destruct (leb r h); constructor; trivial.
    now inversion Hal.
Qed.

Lemma place_sorted (r : R) (l : list R) :
  Sorted (fun a b => leb a b = true) l ->
  Sorted (fun a b => leb a b = true) (place leb r l).
Proof.
  induction l as [|h t IH]; simpl; intros Hs.
  - repeat constructor.
  - destruct (leb r h) eqn:E.
    + constructor; [exact Hs | now constructor].
    + inversion Hs as [|? ? Ht Hh]; subst.
      constructor; [now apply IH |].
      apply place_head; trivial.
      destruct (leb_total r h) as [H|H]; [congruence | exact H].
Qed.

Lemma order_by_sorted (l : list R) :
  Sorted (fun a b => leb a b = true) (order_by leb l).
Proof.
  induction l as [|h t IH]; simpl.
  - constructor.
  - now apply place_sorted.
Qed.

Lemma order_by_strongly_sorted (l : list R) :
  StronglySorted (fun a b => leb a b = true) (order_by leb l).
Proof.
  apply Sorted_StronglySorted.
  - intros a b c. apply leb_trans.
  - apply order_by_sorted.
Qed.
End OrderByFacts.

Lemma order_by_length {R} (leb : R -> R -> bool) (l : list R) :
  List.length (order_by leb l) = List.length l.
Proof. apply Permutation_length, order_by_permutation. Qed.

Lemma order_by_nil_inv {R} (leb : R -> R -> bool) (l : list R) :
  order_by leb l = [] -> l = [].
Proof.
  intros H. apply (f_equal (@List.length R)) in H.
  rewrite order_by_length in H. now destruct l.
Qed.

Lemma in_firstn {A} (x : A) (n : nat) (l : list A) :
  In x (firstn n l) -> In x l.
Proof.
  revert n. induction l as [|h t IH]; intros [|n]; simpl; try tauto.
  intros [H|H]; [now left | right; eauto].
Qed.


Lemma strongly_sorted_map {A B} (f : A -> B) (le : B -> B -> Prop)
  (l : list A) :
  StronglySorted (fun a b => le (f a) (f b)) l -> StronglySorted le (map f l).
Proof.
  induction 1 as [|a l _ IH Hall]; simpl; constructor; trivial.
  rewrite Forall_forall in *. intros y Hy.
  apply in_map_iff in Hy as (x & <- & Hx). now apply Hall.
Qed.

(** ** The orders on column values *)

Lemma ascii_compare_trans (a b c : ascii) :
  Ascii.compare a b = Lt -> Ascii.compare b c = Lt -> Ascii.compare a c = Lt.
Proof.
  unfold Ascii.compare. rewrite !N.compare_lt_iff. apply N.lt_trans.
Qed.

Lemma string_compare_trans (s1 : string) :
  forall s2 s3 o,
    String.compare s1 s2 = o -> String.compare s2 s3 = o -> o <> Gt ->
    String.compare s1 s3 = o.
Proof.
  induction s1 as [|a s1 IH]; intros [|b s2] [|c s3] o; simpl; try congruence.
  destruct (Ascii.compare a b) eqn:Eab, (Ascii.compare b c) eqn:Ebc;
    try congruence.
  - apply Ascii.compare_eq_iff in Eab, Ebc. subst.
    assert (Ascii.compare c c = Eq) as ->.
    { unfold Ascii.compare. apply N.compare_refl. }
    apply IH.
  - apply Ascii.compare_eq_iff in Eab. subst. now rewrite Ebc.
  - apply Ascii.compare_eq_iff in Ebc. subst. now rewrite Eab.
  - now rewrite (ascii_compare_trans _ _ _ Eab Ebc).
Qed.

Lemma string_leb_trans (a b c : string) :
  String.leb a b = true -> String.leb b c = true -> String.leb a c = true.
Proof.
  unfold String.leb.
  destruct (String.compare a b) eqn:Eab; try discriminate;
    destruct (String.compare b c) eqn:Ebc; try discriminate; intros _ _.
  - apply String.compare_eq_iff in Eab. subst. now rewrite Ebc.
  - apply String.compare_eq_iff in Eab. subst. now rewrite Ebc.
  - apply String.compare_eq_iff in Ebc. subst. now rewrite Eab.
  - now rewrite (string_compare_trans a b c Lt Eab Ebc).
Qed.

Lemma text_leb_total (a b : option string) :
  text_leb a b = true \/ text_leb b a = true.
Proof.
  destruct a as [a|], b as [b|]; simpl; auto. apply String.leb_total.
Qed.

Lemma text_leb_trans (a b c : option string) :
  text_leb a b = true -> text_leb b c = true -> text_leb a c = true.
Proof.
  destruct a as [a|], b as [b|], c as [c|]; simpl; try congruence.
  apply string_leb_trans.
Qed.

Lemma int_leb_total (a b : option Z) :
  int_leb a b = true \/ int_leb b a = true.
Proof.
  destruct a as [a|], b as [b|]; simpl; auto.
  rewrite !Z.leb_le. lia.
Qed.

Lemma int_leb_trans (a b c : option Z) :
  int_leb a b = true -> int_leb b c = true -> int_leb a c = true.
Proof.
  destruct a as [a|], b as [b|], c as [c|]; simpl; try congruence.
  rewrite !Z.leb_le. lia.
Qed.

Lemma text_eqb_eq (a b : option string) : text_eqb a b = true <-> a = b.
Proof.
  destruct a as [a|], b as [b|]; simpl; split; try congruence.
  - intros H. apply String.eqb_eq in H. now subst.
  - intros [= ->]. apply String.eqb_refl.
Qed.

(** ** GROUP BY with an additive aggregate *)

Section GroupByFacts.
Context {R K : Type}.
Variable key : R -> K.
Variable same : K -> K -> bool.
Variable step : Z -> R -> Z.
Variable weight : R -> Z.
Hypothesis same_eq : forall a b, same a b = true <-> a = b.
Hypothesis step_adds : forall s r, step s r = (s + weight r)%Z.

Lemma feed_tally (k : K) (r : R) (groups : list (K * Z)) :
  tally same k (feed key same 0%Z step r groups)
  = (tally same k groups + if same (key r) k then weight r else 0)%Z.
Proof.
  unfold tally. induction groups as [|[k' s] rest IH]; simpl.
  - destruct (same (key r) k); simpl; rewrite ?step_adds; lia.
  - destruct (same (key r) k') eqn:E; simpl.
    + apply same_eq in E. subst k'.
      destruct (same (key r) k); simpl; rewrite ?step_adds; lia.
    + destruct (same k' k); simpl; rewrite IH; lia.
Qed.

Lemma feed_total (r : R) (groups : list (K * Z)) :
  sum_ints (map snd (feed key same 0%Z step r groups))
  = (sum_ints (map snd groups) + weight r)%Z.
Proof.
  induction groups as [|[k' s] rest IH]; simpl.
  - rewrite step_adds. lia.
  - destruct (same (key r) k'); simpl; rewrite ?step_adds, ?IH; lia.
Qed.

Lemma feed_keys (k : K) (r : R) (groups : list (K * Z)) :
  In k (map fst (feed key same 0%Z step r groups)) ->
  k = key r \/ In k (map fst groups).
Proof.
  induction groups as [|[k' s] rest IH]; simpl.
  - intros [H|[]]. now left.
  - destruct (same (key r) k'); simpl; intros [H|H]; auto.
    destruct (IH H); auto.
Qed.

Lemma feed_nodup (r : R) (groups : list (K * Z)) :
  NoDup (map fst groups) ->
  NoDup (map fst (feed key same 0%Z step r groups)).
Proof.
  induction groups as [|[k' s] rest IH]; simpl; intros Hnd.
  - repeat constructor. intros [].
  - inversion Hnd as [|? ? Hnot Hrest]; subst.
    destruct (same (key r) k') eqn:E; simpl.
    + now constructor.
    + constructor; [| now apply IH].
      intros Hin. apply feed_keys in Hin as [->|Hin]; [| contradiction].
      assert (same (key r) (key r) = true) by now apply same_eq.
      congruence.
Qed.

Lemma fold_feed_tally (k : K) (rows : list R) :
  forall groups,
    tally same k (fold_left (fun g r => feed key same 0%Z step r g) rows groups)
    = (tally same k groups + share key same weight k rows)%Z.
Proof.
  unfold share. induction rows as [|r rows IH]; intros groups; simpl.
  - lia.
  - rewrite IH, feed_tally.
    destruct (same (key r) k); simpl; lia.
Qed.

Lemma fold_feed_total (rows : list R) :
  forall groups,
    sum_ints (map snd
      (fold_left (fun g r => feed key same 0%Z step r g) rows groups))
    = (sum_ints (map snd groups) + sum_ints (map weight rows))%Z.
Proof.
  induction rows as [|r rows IH]; intros groups; simpl.
  - lia.
  - rewrite IH, feed_total. lia.
Qed.

Lemma fold_feed_nodup (rows : list R) :
  forall groups,
    NoDup (map fst groups) ->
    NoDup (map fst
      (fold_left (fun g r => feed key same 0%Z step r g) rows groups)).
Proof.
  induction rows as [|r rows IH]; intros groups Hnd; simpl; trivial.
  now apply IH, feed_nodup.
Qed.

Lemma tally_absent (k : K) (groups : list (K * Z)) :
  ~ In k (map fst groups) -> tally same k groups = 0%Z.
Proof.
  unfold tally. induction groups as [|[k' s] rest IH]; simpl; trivial.
  intros Hnot. destruct (same k' k) eqn:E; simpl.
  - apply same_eq in E. tauto.
  - apply IH. tauto.
Qed.

Lemma tally_member (k : K) (n : Z) (groups : list (K * Z)) :
  NoDup (map fst groups) -> In (k, n) groups -> tally same k groups = n.
Proof.
  induction groups as [|[k' s] rest IH]; simpl; intros Hnd Hin; [easy |].
  inversion Hnd as [|? ? Hnot Hrest]; subst.
  unfold tally in *. simpl. destruct Hin as [[= -> ->]|Hin].
  - assert (same k k = true) as -> by now apply same_eq.
    simpl. fold (tally same k rest). rewrite tally_absent; trivial. lia.
  - destruct (same k' k) eqn:E; [| now apply IH].
    apply same_eq in E. subst k'. exfalso. apply Hnot.
    apply in_map_iff. now exists (k, n).
Qed.

(** Every group holds the contribution of exactly its rows. *)
Lemma group_by_member (k : K) (n : Z) (rows : list R) :
  In (k, n) (group_by key same 0%Z step rows) ->
  n = share key same weight k rows.
Proof.
  intros Hin. unfold group_by in *.
  rewrite <- (tally_member k n _ (fold_feed_nodup rows [] (NoDup_nil K)) Hin).
  rewrite fold_feed_tally. reflexivity.
Qed.

(** The groups together hold the contribution of all rows. *)
Lemma group_by_total (rows : list R) :
  sum_ints (map snd (group_by key same 0%Z step rows))
  = sum_ints (map weight rows).
Proof. unfold group_by. rewrite fold_feed_total. reflexivity. Qed.
End GroupByFacts.

Lemma sum_ints_ones {A} (l : list A) :
  sum_ints (map (fun _ => 1%Z) l) = Z.of_nat (List.length l).
Proof.
  induction l as [|a l IH]; cbn [List.length map sum_ints fold_right].
  - reflexivity.
  - fold (sum_ints (map (fun _ => 1%Z) l)). rewrite IH. lia.
Qed.

Lemma sum_ints_permutation (l l' : list Z) :
  Permutation l l' -> sum_ints l = sum_ints l'.
Proof. induction 1; simpl; lia. Qed.

(* ===================================================================== *)
(** * Facts about the runtime *)
(* ===================================================================== *)

Lemma update_fresh {A} (f : A -> A) (xs : list A) (x : A) :
  update (List.length xs) f (xs ++ [x])%list = (xs ++ [f x])%list.
Proof. induction xs as [|y xs IH]; simpl; [| rewrite IH]; reflexivity. Qed.

(** [query_db] on a database that answers the statement. *)
Lemma query_db_rows (q : statement) (w : world) (db : database)
  (rows : list row) :
  storage w = Serving db ->
  run q db = inl rows ->
  query_db q w
  = (Return rows, with_connections w (connections w ++ [opened])%list).
Proof.
  intros Hs Hr.
  unfold query_db, try_except, with_connect, bind, connect, execute,
    fetchall, commit, ret.
  rewrite Hs. simpl. rewrite Hs, Hr. simpl.
  rewrite update_fresh. reflexivity.
Qed.

(** [query_db] when the storage layer raises. *)
Lemma query_db_raises (q : statement) (w : world) (msg : string) :
  failure q (storage w) = Some msg ->
  exists w',
    query_db q w = (Raise (HTTPException 500 "Database error"), w') /\
    log w' = (log w ++ [database_error msg])%list /\
    storage w' = storage w /\ archive w' = archive w /\ sent w' = sent w.
Proof.
  unfold failure, query_db, try_except, with_connect, bind, connect, execute,
    fetchall, rollback, raise, abort, logging_error.
  destruct (storage w) as [db|m|m] eqn:Hs; simpl; rewrite ?Hs.
  - destruct (run q db) as [rows|m] eqn:Hr; [discriminate |].
    intros [= ->]. rewrite ?Hr. simpl.
    eexists. split; [reflexivity |]. simpl. auto.
  - intros [= ->]. eexists. split; [reflexivity |]. simpl. auto.
  - intros [= ->]. simpl.
    eexists. split; [reflexivity |]. simpl. auto.
Qed.

Lemma bind_return {A B} (m : M A) (k : A -> M B) (w w' : world) (a : A) :
  m w = (Return a, w') -> bind m k w = k a w'.
Proof. unfold bind. now intros ->. Qed.

Lemma bind_raise {A B} (m : M A) (k : A -> M B) (w w' : world) (e : exn) :
  m w = (Raise e, w') -> bind m k w = (Raise e, w').
Proof. unfold bind. now intros ->. Qed.

Lemma cell_found (r : row) (i : nat) (v : value) (w : world) :
  nth_error r i = Some v ->
  bind (item r i) (fun v => ret (json_of_value v)) w
  = (Return (json_of_value v), w).
Proof. unfold bind, item. now intros ->. Qed.

Lemma cell_missing (r : row) (i : nat) (w : world) :
  nth_error r i = None ->
  bind (item r i) (fun v => ret (json_of_value v)) w = (Raise IndexError, w).
Proof. unfold bind, item. now intros ->. Qed.

(** A column of rows that all have the cell. *)
Lemma column_cells {A} (i : nat) (cells : A -> row) (cell : A -> value)
  (xs : list A) (w : world) :
  (forall x, nth_error (cells x) i = Some (cell x)) ->
  column i (map cells xs) w
  = (Return (map (fun x => json_of_value (cell x)) xs), w).
Proof.
  intros Hcell. unfold column.
  induction xs as [|x xs IH]; simpl; trivial.
  rewrite (bind_return _ _ w w _ (cell_found _ _ _ w (Hcell x))).
  rewrite (bind_return _ _ w w _ IH). reflexivity.
Qed.

(** A column of any rows: as long as the result, or an exception; the
    world is not touched. *)
Lemma column_shape (i : nat) (result : list row) (w : world) :
  (exists cells, column i result w = (Return cells, w) /\
                 List.length cells = List.length result) \/
  (exists e, column i result w = (Raise e, w)).
Proof.
  unfold column. induction result as [|r rest IH]; simpl.
  - left. exists []. split; reflexivity.
  - destruct (nth_error r i) as [v|] eqn:Hv.
    + rewrite (bind_return _ _ w w _ (cell_found _ _ _ w Hv)).
      destruct IH as [(cells & Hcol & Hlen) | (e & Hcol)].
      * left. rewrite (bind_return _ _ w w _ Hcol).
        eexists. split; [reflexivity |]. simpl. now rewrite Hlen.
      * right. rewrite (bind_raise _ _ w w _ Hcol). now exists e.
    + right. rewrite (bind_raise _ _ w w _ (cell_missing _ _ w Hv)).
      now exists IndexError.
Qed.

Lemma try_return {A} (m : M A) (class : exn -> bool) (handler : exn -> M A)
  (w w' : world) (a : A) :
  m w = (Return a, w') -> try_except m class handler w = (Return a, w').
Proof. unfold try_except. now intros ->. Qed.

Lemma try_caught {A} (m : M A) (class : exn -> bool) (handler : exn -> M A)
  (w w' : world) (e : exn) :
  m w = (Raise e, w') -> class e = true ->
  try_except m class handler w = handler e w'.
Proof. unfold try_except. now intros -> ->. Qed.

Lemma dispatch_rule (r : route) : dispatch_request (rule r) = view r.
Proof. destruct r; reflexivity. Qed.

(** ** Nothing writes to the database *)

Create HintDb frame.

Lemma read_only_ret {A} (a : A) : read_only (ret a).
Proof. now intros w. Qed.

Lemma read_only_raise {A} (e : exn) : read_only (@raise A e).
Proof. now intros w. Qed.

Lemma read_only_bind {A B} (m : M A) (k : A -> M B) :
  read_only m -> (forall a, read_only (k a)) -> read_only (bind m k).
Proof.
  intros Hm Hk w. unfold bind. specialize (Hm w).
  destruct (m w) as [[a|e] w']; simpl in *; [| exact Hm].
  now rewrite Hk.
Qed.

Lemma read_only_try {A} (m : M A) (class : exn -> bool)
  (handler : exn -> M A) :
  read_only m -> (forall e, read_only (handler e)) ->
  read_only (try_except m class handler).
Proof.
  intros Hm Hh w. unfold try_except. specialize (Hm w).
  destruct (m w) as [[a|e] w']; simpl in *; [exact Hm |].
  destruct (class e); simpl; [now rewrite Hh | exact Hm].
Qed.

Lemma read_only_logging_error (format : string) (e : exn) :
  read_only (logging_error format e).
Proof. now intros w. Qed.

Lemma read_only_abort {A} (code : Z) (description : string) :
  read_only (@abort A code description).
Proof. now intros w. Qed.

Lemma read_only_connect : read_only connect.
Proof. intros w. unfold connect. now destruct (storage w) eqn:E. Qed.

Lemma read_only_execute (conn : nat) (q : statement) :
  read_only (execute conn q).
Proof.
  intros w. unfold execute.
  destruct (storage w) as [db|m|m] eqn:E; trivial. now destruct (run q db).
Qed.

Lemma read_only_fetchall (cursor : list row) : read_only (fetchall cursor).
Proof. now intros w. Qed.

Lemma read_only_commit (conn : nat) : read_only (commit conn).
Proof. now intros w. Qed.

Lemma read_only_rollback (conn : nat) : read_only (rollback conn).
Proof. now intros w. Qed.

Lemma read_only_with_connect {A} (block : nat -> M A) :
  (forall conn, read_only (block conn)) -> read_only (with_connect block).
Proof.
  intros Hb. unfold with_connect. apply read_only_bind.
  - apply read_only_connect.
  - intros conn w. specialize (Hb conn w).
    destruct (block conn w) as [[a|e] w']; simpl in *; exact Hb.
Qed.

Lemma read_only_requests_get (request : api_request) :
  read_only (requests_get request).
Proof. intros w. unfold requests_get. now destruct (archive w request). Qed.

Lemma read_only_raise_for_status (r : http_response) :
  read_only (raise_for_status r).
Proof.
  unfold raise_for_status.
  destruct ((400 <=? status_code r) && (status_code r <? 600))%Z;
    now intros w.
Qed.

Lemma read_only_response_json (r : http_response) :
  read_only (response_json r).
Proof. unfold response_json. destruct (document r); now intros w. Qed.

Lemma read_only_item {A} (xs : list A) (i : nat) : read_only (item xs i).
Proof. unfold item. destruct (nth_error xs i); now intros w. Qed.

Lemma read_only_unpack2 {A} (t : list A) : read_only (unpack2 t).
Proof. destruct t as [|a [|b [|c t]]]; now intros w. Qed.

#[local] Hint Resolve read_only_ret read_only_raise read_only_logging_error
  read_only_abort read_only_connect read_only_execute read_only_fetchall
  read_only_commit read_only_rollback read_only_requests_get
  read_only_raise_for_status read_only_response_json read_only_item
  read_only_unpack2 : frame.

Ltac frame :=
  repeat first
    [ apply read_only_with_connect; intros ?
    | apply read_only_try; [| intros ?]
    | apply read_only_bind; [| intros ?]
    | solve [auto with frame] ].

Lemma read_only_comprehension {A B} (f : A -> M B) (xs : list A) :
  (forall x, read_only (f x)) -> read_only (comprehension f xs).
Proof. intros Hf. induction xs as [|x xs IH]; simpl; frame. Qed.

Lemma read_only_column (i : nat) (result : list row) :
  read_only (column i result).
Proof. apply read_only_comprehension. intros r. frame. Qed.

Lemma read_only_query_db (q : statement) : read_only (query_db q).
Proof. unfold query_db. frame. Qed.

#[local] Hint Resolve read_only_column read_only_query_db : frame.

Lemma read_only_view (r : route) : read_only (view r).
Proof.
  destruct r; simpl;
    unfold index, render_template, temperature_over_time, orders_over_time,
      low_stock_levels, most_popular_products, payment_method_popularity;
    frame.
Qed.

Lemma read_only_dispatch (path : string) : read_only (dispatch_request path).
Proof.
  unfold dispatch_request. destruct (match_request path).
  - apply read_only_view.
  - frame.
Qed.

(* ===================================================================== *)
(** * The views *)
(* ===================================================================== *)

Lemma serve_rule (r : route) (w : world) :
  serve (rule r) w
  = match view r w with
    | (Return resp, w') => (resp, w')
    | (Raise e, w') => (handle_exception e, w')
    end.
Proof. unfold serve. now rewrite dispatch_rule. Qed.

(** A view whose query fails logs again and aborts with its own
    description; the record of [query_db] is already in the log. *)
Lemma view_after_storage_failure (r : route) (q : statement) (w : world)
  (msg : string) :
  query_of r = Some q ->
  failure q (storage w) = Some msg ->
  exists description w',
    view r w = (Raise (HTTPException 500 description), w') /\
    exists rest, log w' = (log w ++ database_error msg :: rest)%list.
Proof.
  intros Hq Hf.
  destruct (query_db_raises q w msg Hf) as (w0 & Hdb & Hlog & _).
  destruct r; simpl in Hq; inversion Hq; subst q; simpl;
    unfold temperature_over_time, orders_over_time, low_stock_levels,
      most_popular_products, payment_method_popularity;
    rewrite (try_caught _ _ _ w w0 _ (bind_raise _ _ w w0 _ Hdb) eq_refl);
    unfold bind, logging_error, abort, raise;
    (eexists; eexists; split; [reflexivity |]);
    simpl; rewrite Hlog, <- app_assoc; eexists; reflexivity.
Qed.

(** C9: for every request to every route the database state after the
    request equals the state before it; neither a handler nor a call of
    the query executor [query_db] inserts, updates or deletes a row. *)
Theorem database_never_written :
  (forall q w, storage (snd (query_db q w)) = storage w) /\
  (forall path w, storage (snd (serve path w)) = storage w).
Proof.
  split.
  - intros q w. apply read_only_query_db.
  - intros path w. unfold serve.
    pose proof (read_only_dispatch path w) as H.
    destruct (dispatch_request path w) as [[resp|e] w']; exact H.
Qed.

(** C4 (what the code does): [query_db] never closes the connection it
    opens.  Whenever sqlite3.connect succeeds, the connection is still
    open when [query_db] returns or raises: leaving the [with] block of a
    sqlite3 connection commits or rolls back and closes nothing. *)
Theorem query_db_leaves_connection_open (q : statement) (w : world) :
  match storage w with
  | CannotOpen _ => connections (snd (query_db q w)) = connections w
  | _ =>
      connections (snd (query_db q w)) = (connections w ++ [opened])%list /\
      nth_error (connections (snd (query_db q w))) (List.length (connections w))
      = Some {| is_open := true; in_transaction := false |}
  end.
Proof.
  assert (Hnth : nth_error (connections w ++ [opened])
                   (List.length (connections w)) = Some opened).
  { rewrite nth_error_app2, Nat.sub_diag by apply Nat.le_refl. reflexivity. }
  unfold query_db, try_except, with_connect, bind, connect, execute,
    fetchall, commit, rollback, raise, abort, logging_error, ret.
  destruct (storage w) as [db|m|m] eqn:Hs; simpl; rewrite ?Hs; simpl.
  - destruct (run q db) as [rows|m]; simpl; rewrite update_fresh;
      split; trivial.
  - reflexivity.
  - rewrite update_fresh. split; trivial.
Qed.

(** The same on the two exit paths of one call: the statement succeeds on
    a readable database, and raises on a database without tables. *)
Example query_db_open_on_both_paths :
  connections (snd (query_db SelectOrdersOverTime
                      (Sample.initial (Serving Sample.shop) Sample.offline)))
  = [{| is_open := true; in_transaction := false |}] /\
  connections (snd (query_db SelectOrdersOverTime
                      (Sample.initial (CannotQuery "no such table: orders")
                         Sample.offline)))
  = [{| is_open := true; in_transaction := false |}].
Proof. split; reflexivity. Qed.

(** C2: for every route under /api/ and every database state in which the
    storage layer raises an error, the view raises only after the
    underlying error has been written to the log, and the response is
    status 500 with body {"error": "Internal server error"}. *)
Theorem storage_failure_gives_uniform_500 (r : route) (q : statement)
  (w : world) (msg : string) :
  In r api_routes ->
  query_of r = Some q ->
  failure q (storage w) = Some msg ->
  exists e w1,
    dispatch_request (rule r) w = (Raise e, w1) /\
    (exists rest, log w1 = (log w ++ database_error msg :: rest)%list) /\
    serve (rule r) w = ({| status := 500; body := server_error |}, w1).
Proof.
  intros _ Hq Hf.
  destruct (view_after_storage_failure r q w msg Hq Hf)
    as (description & w1 & Hview & Hlog).
  exists (HTTPException 500 description), w1.
  rewrite serve_rule, dispatch_rule, Hview. auto.
Qed.

Lemma storage_failure_gives_uniform_500_witness :
  exists e w1,
    dispatch_request "/api/orders_over_time"
      (Sample.initial (CannotQuery "no such table: orders") Sample.offline)
    = (Raise e, w1) /\
    (exists rest,
        log w1 = ([] ++ database_error "no such table: orders" :: rest)%list) /\
    serve "/api/orders_over_time"
      (Sample.initial (CannotQuery "no such table: orders") Sample.offline)
    = ({| status := 500; body := server_error |}, w1).
Proof.
  apply (storage_failure_gives_uniform_500 OrdersOverTime SelectOrdersOverTime
           (Sample.initial (CannotQuery "no such table: orders") Sample.offline)
           "no such table: orders").
  - simpl. tauto.
  - reflexivity.
  - reflexivity.
Defined.

Lemma handler_raises {A} (format description : string) (e : exn) (w : world) :
  bind (logging_error format e) (fun _ => @abort A 500 description) w
  = (Raise (HTTPException 500 description),
     with_log w (log w ++ [{| fmt := format; arg := e |}])%list).
Proof. reflexivity. Qed.

Lemma all_equal_two (n a b : nat) : a = n -> b = n -> all_equal [a; b].
Proof. intros -> -> x y [<-|[<-|[]]] [<-|[<-|[]]]; reflexivity. Qed.

Lemma all_equal_three (n a b c : nat) :
  a = n -> b = n -> c = n -> all_equal [a; b; c].
Proof.
  intros -> -> -> x y [<-|[<-|[<-|[]]]] [<-|[<-|[<-|[]]]]; reflexivity.
Qed.

Lemma all_equal_none : all_equal [].
Proof. intros x y []. Qed.

(** The shape shared by the views with two columns. *)
Lemma two_columns_aligned (q : statement) (k0 k1 format description : string)
  (w : world) :
  all_equal (array_lengths (body (fst
    match
      try_except
        (bind (query_db q) (fun result =>
         bind (column 0 result) (fun a =>
         bind (column 1 result) (fun b =>
         ret (jsonify (JObj [(k0, JArr a); (k1, JArr b)]))))))
        is_exception
        (fun e => bind (logging_error format e)
                    (fun _ => abort 500 description)) w
    with
    | (Return resp, w') => (resp, w')
    | (Raise e, w') => (handle_exception e, w')
    end))).
Proof.
  unfold try_except.
  destruct (query_db q w) as [[rows|e] w1] eqn:Hq.
  - rewrite (bind_return _ _ w w1 _ Hq).
    destruct (column_shape 0 rows w1) as [(a & Ha & La) | (e & Ha)].
    + rewrite (bind_return _ _ w1 w1 _ Ha).
      destruct (column_shape 1 rows w1) as [(b & Hb & Lb) | (e & Hb)].
      * rewrite (bind_return _ _ w1 w1 _ Hb). simpl.
        now apply all_equal_two with (List.length rows).
      * rewrite (bind_raise _ _ w1 w1 _ Hb). simpl. apply all_equal_none.
    + rewrite (bind_raise _ _ w1 w1 _ Ha). simpl. apply all_equal_none.
  - rewrite (bind_raise _ _ w w1 _ Hq). simpl. apply all_equal_none.
Qed.

(** C10: for every database state, each of the four SQL-only routes
    returns a JSON object in which all arrays have the same length, every
    array being a column of the same sequence of rows. *)
Theorem arrays_have_equal_length (w : world) :
  Forall (fun r => all_equal (array_lengths (body (fst (serve (rule r) w)))))
    sql_only_routes.
Proof.
  repeat constructor; rewrite serve_rule; simpl view.
  - apply two_columns_aligned.
  - apply two_columns_aligned.
  - unfold most_popular_products, try_except.
    destruct (query_db SelectMostPopular w) as [[rows|e] w1] eqn:Hq.
    + rewrite (bind_return _ _ w w1 _ Hq).
      destruct (column_shape 0 rows w1) as [(a & Ha & La) | (e & Ha)].
      * rewrite (bind_return _ _ w1 w1 _ Ha).
        destruct (column_shape 1 rows w1) as [(b & Hb & Lb) | (e & Hb)].
        -- rewrite (bind_return _ _ w1 w1 _ Hb).
           destruct (column_shape 2 rows w1) as [(c & Hc & Lc) | (e & Hc)].
           ++ rewrite (bind_return _ _ w1 w1 _ Hc). simpl.
              now apply all_equal_three with (List.length rows).
           ++ rewrite (bind_raise _ _ w1 w1 _ Hc). simpl.
              apply all_equal_none.
        -- rewrite (bind_raise _ _ w1 w1 _ Hb). simpl. apply all_equal_none.
      * rewrite (bind_raise _ _ w1 w1 _ Ha). simpl. apply all_equal_none.
    + rewrite (bind_raise _ _ w w1 _ Hq). simpl. apply all_equal_none.
  - apply two_columns_aligned.
Qed.

(** A view of a readable database: the rows reach the columns, and the
    only change to the world is the connection. *)
Lemma view_rows {A} (q : statement) (rest : list row -> M A)
  (class : exn -> bool) (handler : exn -> M A) (w : world) (db : database)
  (rows : list row) (a : A) :
  storage w = Serving db ->
  run q db = inl rows ->
  (forall w1, rest rows w1 = (Return a, w1)) ->
  try_except (bind (query_db q) rest) class handler w
  = (Return a, with_connections w (connections w ++ [opened])%list).
Proof.
  intros Hs Hr Hrest. apply try_return.
  rewrite (bind_return _ _ _ _ _ (query_db_rows q w db rows Hs Hr)).
  apply Hrest.
Qed.

(** C8: for each of the four SQL-only routes, when the query returns zero
    rows the handler succeeds with status 200 and a JSON object whose
    arrays are all empty. *)
Theorem empty_result_gives_empty_arrays (w : world) (db : database) :
  storage w = Serving db ->
  (run SelectOrdersOverTime db = inl [] ->
   fst (serve "/api/orders_over_time" w)
   = {| status := 200;
        body := Json (JObj [("dates", JArr []); ("counts", JArr [])]) |}) /\
  (run SelectLowStock db = inl [] ->
   fst (serve "/api/low_stock_levels" w)
   = {| status := 200;
        body := Json (JObj [("products", JArr []);
                            ("quantities", JArr [])]) |}) /\
  (run SelectMostPopular db = inl [] ->
   fst (serve "/api/most_popular_products" w)
   = {| status := 200;
        body := Json (JObj [("product_ids", JArr []);
                            ("product_names", JArr []);
                            ("totals", JArr [])]) |}) /\
  (run SelectPaymentPopularity db = inl [] ->
   fst (serve "/api/payment_method_popularity" w)
   = {| status := 200;
        body := Json (JObj [("methods", JArr []); ("counts", JArr [])]) |}).
Proof.
  intros Hs. repeat split; intros Hr.
  - rewrite (serve_rule OrdersOverTime). simpl view. unfold orders_over_time.
    now rewrite (view_rows _ _ _ _ w db [] _ Hs Hr (fun w1 => eq_refl)).
  - rewrite (serve_rule LowStockLevels). simpl view. unfold low_stock_levels.
    now rewrite (view_rows _ _ _ _ w db [] _ Hs Hr (fun w1 => eq_refl)).
  - rewrite (serve_rule MostPopularProducts). simpl view.
    unfold most_popular_products.
    now rewrite (view_rows _ _ _ _ w db [] _ Hs Hr (fun w1 => eq_refl)).
  - rewrite (serve_rule PaymentMethodPopularity). simpl view.
    unfold payment_method_popularity.
    now rewrite (view_rows _ _ _ _ w db [] _ Hs Hr (fun w1 => eq_refl)).
Qed.

Lemma empty_result_gives_empty_arrays_witness :
  let w := Sample.initial (Serving Sample.no_rows) Sample.offline in
  fst (serve "/api/orders_over_time" w)
  = {| status := 200;
       body := Json (JObj [("dates", JArr []); ("counts", JArr [])]) |} /\
  fst (serve "/api/low_stock_levels" w)
  = {| status := 200;
       body := Json (JObj [("products", JArr []);
                           ("quantities", JArr [])]) |} /\
  fst (serve "/api/most_popular_products" w)
  = {| status := 200;
       body := Json (JObj [("product_ids", JArr []);
                           ("product_names", JArr []);
                           ("totals", JArr [])]) |} /\
  fst (serve "/api/payment_method_popularity" w)
  = {| status := 200;
       body := Json (JObj [("methods", JArr []); ("counts", JArr [])]) |}.
Proof.
  intros w.
  destruct (empty_result_gives_empty_arrays w Sample.no_rows eq_refl)
    as (H1 & H2 & H3 & H4).
  split; [apply H1; reflexivity |].
  split; [apply H2; reflexivity |].
  split; [apply H3; reflexivity | apply H4; reflexivity].
Defined.


(** ** The three aggregating views on a readable database *)

Lemma orders_over_time_serving (w : world) (db : database) :
  storage w = Serving db ->
  fst (serve "/api/orders_over_time" w)
  = {| status := 200;
       body := Json (JObj
         [("dates", JArr (map json_text (map fst (orders_per_date db))));
          ("counts", JArr (map JInt (map snd (orders_per_date db))))]) |}.
Proof.
  intros Hs. rewrite (serve_rule OrdersOverTime). simpl view.
  unfold orders_over_time.
  set (cells := fun r : option string * Z =>
                  [of_text (fst r); Integer (snd r)]).
  assert (Hr : run SelectOrdersOverTime db
               = inl (map cells (orders_per_date db)))
    by reflexivity.
  erewrite (view_rows _ _ _ _ w db _ _ Hs Hr).
  - simpl. rewrite !map_map. reflexivity.
  - intros w1.
    rewrite (bind_return _ _ w1 w1 _
               (column_cells 0 cells (fun r => of_text (fst r)) _ w1
                  (fun x => eq_refl))).
    rewrite (bind_return _ _ w1 w1 _
               (column_cells 1 cells (fun r => Integer (snd r)) _ w1
                  (fun x => eq_refl))).
    reflexivity.
Qed.

Lemma payment_method_popularity_serving (w : world) (db : database) :
  storage w = Serving db ->
  fst (serve "/api/payment_method_popularity" w)
  = {| status := 200;
       body := Json (JObj
         [("methods", JArr (map json_text (map fst (payments_per_method db))));
          ("counts", JArr (map JInt (map snd (payments_per_method db))))]) |}.
Proof.
  intros Hs. rewrite (serve_rule PaymentMethodPopularity). simpl view.
  unfold payment_method_popularity.
  set (cells := fun r : option string * Z =>
                  [of_text (fst r); Integer (snd r)]).
  assert (Hr : run SelectPaymentPopularity db
               = inl (map cells (payments_per_method db)))
    by reflexivity.
  erewrite (view_rows _ _ _ _ w db _ _ Hs Hr).
  - simpl. rewrite !map_map. reflexivity.
  - intros w1.
    rewrite (bind_return _ _ w1 w1 _
               (column_cells 0 cells (fun r => of_text (fst r)) _ w1
                  (fun x => eq_refl))).
    rewrite (bind_return _ _ w1 w1 _
               (column_cells 1 cells (fun r => Integer (snd r)) _ w1
                  (fun x => eq_refl))).
    reflexivity.
Qed.

Lemma most_popular_products_serving (w : world) (db : database)
  (rows : list (Z * option string * option Z)) :
  storage w = Serving db ->
  most_popular db = Some rows ->
  fst (serve "/api/most_popular_products" w)
  = {| status := 200;
       body := Json (JObj
         [("product_ids", JArr (map JInt (map (fun r => fst (fst r)) rows)));
          ("product_names",
           JArr (map json_text (map (fun r => snd (fst r)) rows)));
          ("totals", JArr (map json_int (map snd rows)))]) |}.
Proof.
  intros Hs Hrows. rewrite (serve_rule MostPopularProducts). simpl view.
  unfold most_popular_products.
  set (cells := fun r : Z * option string * option Z =>
                  [Integer (fst (fst r)); of_text (snd (fst r));
                   of_int (snd r)]).
  assert (Hr : run SelectMostPopular db = inl (map cells rows)).
  { simpl. now rewrite Hrows. }
  erewrite (view_rows _ _ _ _ w db _ _ Hs Hr).
  - simpl. rewrite !map_map. reflexivity.
  - intros w1.
    rewrite (bind_return _ _ w1 w1 _
               (column_cells 0 cells (fun r => Integer (fst (fst r))) _ w1
                  (fun x => eq_refl))).
    rewrite (bind_return _ _ w1 w1 _
               (column_cells 1 cells (fun r => of_text (snd (fst r))) _ w1
                  (fun x => eq_refl))).
    rewrite (bind_return _ _ w1 w1 _
               (column_cells 2 cells (fun r => of_int (snd r)) _ w1
                  (fun x => eq_refl))).
    reflexivity.
Qed.

(* ===================================================================== *)
(** * The statements *)
(* ===================================================================== *)

Lemma nth_error_columns {A B} (l : list (A * B)) (i : nat) (a : A) (b : B) :
  nth_error (map fst l) i = Some a ->
  nth_error (map snd l) i = Some b ->
  In (a, b) l.
Proof.
  revert i. induction l as [|[x y] l IH]; intros [|i]; simpl; try discriminate.
  - intros [= ->] [= ->]. now left.
  - intros Ha Hb. right. eauto.
Qed.

(** ** orders per date *)

Lemma orders_per_date_ascending (db : database) :
  ascending (map fst (orders_per_date db)).
Proof.
  unfold ascending, orders_per_date. apply strongly_sorted_map.
  apply (order_by_strongly_sorted (fun a b => text_leb (fst a) (fst b))).
  - intros a b. apply text_leb_total.
  - intros a b c. apply text_leb_trans.
Qed.

Lemma orders_per_date_counts (db : database) (d : option string) (n : Z) :
  In (d, n) (orders_per_date db) -> n = orders_on db d.
Proof.
  unfold orders_per_date. intros Hin.
  apply (Permutation_in _ (order_by_permutation _ _)) in Hin.
  apply (group_by_member order_date text_eqb _ (fun _ => 1%Z) text_eqb_eq)
    in Hin; [| reflexivity].
  subst n. unfold share, orders_on. apply sum_ints_ones.
Qed.

(** Every way to store three rows. *)
Lemma permutation_of_three {A} (a b c : A) (l : list A) :
  Permutation l [a; b; c] ->
  l = [a; b; c] \/ l = [a; c; b] \/ l = [b; a; c] \/
  l = [c; a; b] \/ l = [b; c; a] \/ l = [c; b; a].
Proof.
  intros H.
  destruct (Permutation_vs_cons_inv H) as (l1 & l2 & ->).
  apply Permutation_sym, Permutation_cons_app_inv,
    Permutation_length_2_inv in H.
  destruct l1 as [|x [|y [|z l1]]]; simpl in *;
    destruct H as [H|H];
    try (injection H as <- <-); try (injection H as <- <- <-);
    try discriminate; subst; auto 10.
  all: destruct l1; discriminate.
Qed.

(** ** payments per method *)

Lemma filter_none {A} (f : A -> bool) (l : list A) :
  (forall y, In y l -> f y = false) -> filter f l = [].
Proof.
  induction l as [|h t IH]; simpl; intros H; trivial.
  rewrite (H h) by now left. apply IH. auto.
Qed.

Lemma filter_key_unique {A} (f : A -> Z) (l : list A) (x : A) :
  NoDup (map f l) -> In x l ->
  List.length (filter (fun y => f x =? f y)%Z l) = 1%nat.
Proof.
  induction l as [|h t IH]; simpl; intros Hnd Hin; [easy |].
  inversion Hnd as [|? ? Hnot Hrest]; subst.
  destruct Hin as [->|Hin].
  - rewrite Z.eqb_refl. simpl. f_equal.
    rewrite filter_none; trivial.
    intros y Hy. apply Z.eqb_neq. intros E. apply Hnot.
    rewrite E. now apply in_map.
  - assert (f x <> f h) as E.
    { intros E. apply Hnot. rewrite <- E. now apply in_map. }
    apply Z.eqb_neq in E. rewrite E. now apply IH.
Qed.

Lemma join_one_each {A B} (on : A -> B -> bool) (l : list A) (r : list B) :
  (forall a, In a l -> List.length (filter (on a) r) = 1%nat) ->
  List.length (join on l r) = List.length l.
Proof.
  unfold join. induction l as [|a l IH]; simpl; intros H; trivial.
  rewrite length_app, length_map, H, IH; auto.
Qed.

Lemma payments_join_length (db : database) :
  method_id_is_key db ->
  payments_reference_methods db ->
  List.length
    (join (fun p m => references (payment_method_id p) (method_id m))
       (payments db) (payment_methods db))
  = List.length (payments db).
Proof.
  intros Hkey Hfk. apply join_one_each. intros p Hp.
  destruct (Hfk p Hp) as (m & Hm & ->). simpl.
  now apply (filter_key_unique method_id).
Qed.

Lemma payments_per_method_total (db : database) :
  method_id_is_key db ->
  payments_reference_methods db ->
  sum_ints (map snd (payments_per_method db))
  = Z.of_nat (List.length (payments db)).
Proof.
  intros Hkey Hfk. unfold payments_per_method.
  rewrite (sum_ints_permutation _ _
             (Permutation_map snd (order_by_permutation _ _))).
  rewrite (group_by_total _ text_eqb _ (fun _ => 1%Z)); [| reflexivity].
  rewrite sum_ints_ones. f_equal. now apply payments_join_length.
Qed.

(** ** the ten most popular products *)


Section GroupKeys.
Context {R K S : Type}.
Variable key : R -> K.
Variable same : K -> K -> bool.
Variable init : S.
Variable step : S -> R -> S.
Hypothesis same_eq : forall a b, same a b = true <-> a = b.

Lemma feed_keeps (k : K) (r : R) (groups : list (K * S)) :
  In k (map fst groups) -> In k (map fst (feed key same init step r groups)).
Proof.
  induction groups as [|[k' s] rest IH]; simpl; [easy |].
  destruct (same (key r) k'); simpl; intros [H|H]; auto.
Qed.

Lemma feed_adds (r : R) (groups : list (K * S)) :
  In (key r) (map fst (feed key same init step r groups)).
Proof.
  induction groups as [|[k' s] rest IH]; simpl; [now left |].
  destruct (same (key r) k') eqn:E; simpl; [| now right].
  left. symmetry. now apply same_eq.
Qed.

Lemma fold_feed_keeps (k : K) (rows : list R) :
  forall groups,
    In k (map fst groups) ->
    In k (map fst
      (fold_left (fun g r => feed key same init step r g) rows groups)).
Proof.
  induction rows as [|r rows IH]; intros groups H; simpl; trivial.
  now apply IH, feed_keeps.
Qed.

(** Every row finds its key among the groups. *)
Lemma group_by_covers (r : R) (rows : list R) :
  In r rows -> In (key r) (map fst (group_by key same init step rows)).
Proof.
  unfold group_by. generalize (@nil (K * S)).
  induction rows as [|x rows IH]; intros groups; simpl; [easy |].
  intros [->|H].
  - apply fold_feed_keeps, feed_adds.
  - now apply IH.
Qed.
End GroupKeys.

Lemma orders_per_date_covers (db : database) (o : order) :
  In o (orders db) -> In (order_date o) (map fst (orders_per_date db)).
Proof.
  intros H. unfold orders_per_date.
  apply (Permutation_in _
           (Permutation_sym (Permutation_map fst (order_by_permutation _ _)))).
  now apply (group_by_covers order_date text_eqb _ _ text_eqb_eq).
Qed.

(** C7: for the orders table holding exactly two orders dated 2024-01-01
    and one order dated 2024-01-02, /api/orders_over_time returns
    {"dates": ["2024-01-01","2024-01-02"], "counts": [2,1]}; and for every
    database state the dates array is sorted ascending, the two arrays have
    the same length, and counts[i] is the number of orders on dates[i]
    (every date of an order being among the dates). *)
Theorem orders_over_time_counts_per_date (w : world) (db : database) :
  storage w = Serving db ->
  (forall i j k,
      Permutation (orders db)
        [ {| order_id := i; order_date := Some "2024-01-01" |};
          {| order_id := j; order_date := Some "2024-01-01" |};
          {| order_id := k; order_date := Some "2024-01-02" |} ] ->
      fst (serve "/api/orders_over_time" w)
      = {| status := 200;
           body := Json (JObj
             [("dates", JArr [JStr "2024-01-01"; JStr "2024-01-02"]);
              ("counts", JArr [JInt 2; JInt 1])]) |}) /\
  exists dates counts,
    fst (serve "/api/orders_over_time" w)
    = {| status := 200;
         body := Json (JObj [("dates", JArr (map json_text dates));
                             ("counts", JArr (map JInt counts))]) |} /\
    ascending dates /\
    List.length dates = List.length counts /\
    (forall i d n,
        nth_error dates i = Some d -> nth_error counts i = Some n ->
        n = orders_on db d) /\
    (forall o, In o (orders db) -> In (order_date o) dates).
Proof.
  intros Hs. rewrite (orders_over_time_serving w db Hs). split.
  - intros i j k Hp. unfold orders_per_date.
    destruct (permutation_of_three _ _ _ _ Hp)
      as [E|[E|[E|[E|[E|E]]]]]; rewrite E; reflexivity.
  - exists (map fst (orders_per_date db)), (map snd (orders_per_date db)).
    split; [reflexivity |]. split; [apply orders_per_date_ascending |].
    split; [now rewrite !length_map |]. split.
    + intros i d n Hd Hn. apply orders_per_date_counts.
      eapply nth_error_columns; eauto.
    + apply orders_per_date_covers.
Qed.

Lemma orders_over_time_counts_per_date_witness :
  fst (serve "/api/orders_over_time"
         (Sample.initial (Serving Sample.shop) Sample.offline))
  = {| status := 200;
       body := Json (JObj
         [("dates", JArr [JStr "2024-01-01"; JStr "2024-01-02"]);
          ("counts", JArr [JInt 2; JInt 1])]) |}.
Proof.
  destruct (orders_over_time_counts_per_date
              (Sample.initial (Serving Sample.shop) Sample.offline)
              Sample.shop eq_refl) as [Hthree _].
  apply (Hthree 2%Z 3%Z 1%Z). simpl.
  apply perm_trans
    with [ {| order_id := 2; order_date := Some "2024-01-01" |};
           {| order_id := 1; order_date := Some "2024-01-02" |};
           {| order_id := 3; order_date := Some "2024-01-01" |} ].
  - apply perm_swap.
  - apply perm_skip, perm_swap.
Defined.

(** C6: for every database state in which every payments row's method_id
    references an existing payment_methods row (method_id being the key of
    payment_methods), the integers in the counts array returned by
    /api/payment_method_popularity add up to the number of rows in the
    payments table. *)
Theorem payment_counts_sum_to_payments (w : world) (db : database) :
  storage w = Serving db ->
  method_id_is_key db ->
  payments_reference_methods db ->
  exists methods counts,
    fst (serve "/api/payment_method_popularity" w)
    = {| status := 200;
         body := Json (JObj [("methods", JArr (map json_text methods));
                             ("counts", JArr (map JInt counts))]) |} /\
    sum_ints counts = Z.of_nat (List.length (payments db)).
Proof.
  intros Hs Hkey Hfk.
  exists (map fst (payments_per_method db)), (map snd (payments_per_method db)).
  split.
  - now apply payment_method_popularity_serving.
  - now apply payments_per_method_total.
Qed.

Lemma payment_counts_sum_to_payments_witness :
  exists methods counts,
    fst (serve "/api/payment_method_popularity"
           (Sample.initial (Serving Sample.shop) Sample.offline))
    = {| status := 200;
         body := Json (JObj [("methods", JArr (map json_text methods));
                             ("counts", JArr (map JInt counts))]) |} /\
    sum_ints counts = 3%Z.
Proof.
  apply (payment_counts_sum_to_payments
           (Sample.initial (Serving Sample.shop) Sample.offline) Sample.shop).
  - reflexivity.
  - unfold method_id_is_key. simpl.
    repeat constructor; simpl; intuition discriminate.
  - intros p. simpl. intros [<-|[<-|[<-|[]]]]; simpl.
    + exists {| method_id := 1; method_name := Some "card" |}. auto.
    + exists {| method_id := 2; method_name := Some "cash" |}. auto.
    + exists {| method_id := 2; method_name := Some "cash" |}. auto.
Defined.

(** Eleven products ordered 1 to 11 times: the ten most ordered remain. *)
Example catalogue_top_ten :
  fst (serve "/api/most_popular_products"
         (Sample.initial (Serving Sample.catalogue) Sample.offline))
  = {| status := 200;
       body := Json (JObj
         [("product_ids",
           JArr (map JInt [11; 10; 9; 8; 7; 6; 5; 4; 3; 2]%Z));
          ("product_names", JArr (repeat JNull 10));
          ("totals",
           JArr (map JInt [11; 10; 9; 8; 7; 6; 5; 4; 3; 2]%Z))]) |}.
Proof. vm_compute. reflexivity. Qed.

(** ** The temperature view *)

Lemma temperature_over_time_serving (w : world) (db : database) :
  storage w = Serving db ->
  let request := params (of_text (fst (date_range db)))
                   (of_text (snd (date_range db))) in
  let w2 := with_sent
              (with_connections w (connections w ++ [opened])%list)
              (sent w ++ [request])%list in
  temperature_over_time w
  = match call_result (archive w request) with
    | inl doc => (Return (jsonify doc), w2)
    | inr e =>
        (Raise (HTTPException 500 "Error fetching temperature data."),
         with_log w2 (log w ++ [temperature_record e])%list)
    end.
Proof.
  intros Hs.
  assert (Hr : run SelectDateRange db
               = inl [[of_text (fst (date_range db));
                       of_text (snd (date_range db))]]).
  { simpl. now destruct (date_range db). }
  revert Hr.
  generalize (of_text (fst (date_range db))) (of_text (snd (date_range db))).
  intros first last Hr request w2.
  unfold temperature_over_time, try_except.
  rewrite (bind_return _ _ _ _ _ (query_db_rows _ w db _ Hs Hr)).
  unfold bind, item, unpack2, ret, requests_get, raise_for_status,
    response_json, raise. simpl.
  fold request. unfold call_result.
  destruct (archive w request) as [msg|answer]; [reflexivity |].
  destruct ((400 <=? status_code answer) && (status_code answer <? 600))%Z;
    [reflexivity |].
  destruct (document answer); reflexivity.
Qed.

Lemma date_range_no_orders (db : database) :
  orders db = [] -> date_range db = (None, None).
Proof. unfold date_range. now intros ->. Qed.

(** C1 (as stated) fails: with an empty orders table the handler does send
    a request to the archive; the 500 is the archive's refusal of it. *)
Lemma temperature_without_orders_counterexample :
  let result :=
    serve "/api/temperature_over_time"
      (Sample.initial (Serving Sample.no_rows) Sample.strict_archive) in
  ~ (status (fst result) = 500%Z /\ sent (snd result) = []).
Proof. intros result [_ H]. vm_compute in H. discriminate H. Qed.

(** C1 (amended): with an empty orders table, so that MIN(order_date) and
    MAX(order_date) are both NULL, the handler sends one request to the
    archive, with start_date and end_date None; the response is status 500
    with body {"error": "Internal server error"} exactly when that call
    fails, and the relayed document otherwise. *)
Theorem temperature_without_orders_calls_archive (w : world) (db : database) :
  storage w = Serving db ->
  orders db = [] ->
  sent (snd (serve "/api/temperature_over_time" w))
  = (sent w ++ [params Null Null])%list /\
  fst (serve "/api/temperature_over_time" w)
  = match call_result (archive w (params Null Null)) with
    | inl doc => {| status := 200; body := Json doc |}
    | inr _ => {| status := 500; body := server_error |}
    end.
Proof.
  intros Hs Hnone.
  rewrite (serve_rule TemperatureOverTime). simpl view.
  rewrite (temperature_over_time_serving w db Hs).
  rewrite (date_range_no_orders db Hnone). simpl.
  destruct (call_result (archive w (params Null Null))); split; reflexivity.
Qed.

Lemma temperature_without_orders_calls_archive_witness :
  let w := Sample.initial (Serving Sample.no_rows) Sample.strict_archive in
  sent (snd (serve "/api/temperature_over_time" w)) = [params Null Null] /\
  fst (serve "/api/temperature_over_time" w)
  = {| status := 500; body := server_error |}.
Proof.
  intros w.
  apply (temperature_without_orders_calls_archive w Sample.no_rows);
    reflexivity.
Defined.

(** C3 (as stated) fails twice: when the archive cannot be reached the
    client receives the uniform body, in which the message of the abort
    does not occur; and an answer with status 304 and a JSON body is not a
    failure at all. *)
Lemma archive_failure_counterexample :
  (let response :=
     fst (serve "/api/temperature_over_time"
            (Sample.initial (Serving Sample.shop) Sample.offline)) in
   status response = 500%Z /\
   body response = server_error /\
   ~ In "Error fetching temperature data." (payload_texts (body response))) /\
  status (fst (serve "/api/temperature_over_time"
                 (Sample.initial (Serving Sample.shop) Sample.not_modified)))
  = 200%Z.
Proof.
  repeat split.
  vm_compute. intros [H|[]]. discriminate H.
Qed.

(** C3 (amended): for every failure of the archive call (no answer, a
    status from 400 to 599, or a body that is not JSON) the view logs the
    failure and aborts with the description
    "Error fetching temperature data."; the client receives status 500
    with the uniform body {"error": "Internal server error"}, in which the
    description does not appear. *)
Theorem archive_failure_gives_uniform_500 (w : world) (db : database)
  (e : exn) :
  storage w = Serving db ->
  call_result
    (archive w (params (of_text (fst (date_range db)))
                  (of_text (snd (date_range db))))) = inr e ->
  exists w1,
    dispatch_request "/api/temperature_over_time" w
    = (Raise (HTTPException 500 "Error fetching temperature data."), w1) /\
    log w1 = (log w ++ [temperature_record e])%list /\
    serve "/api/temperature_over_time" w
    = ({| status := 500; body := server_error |}, w1) /\
    ~ In "Error fetching temperature data." (payload_texts server_error).
Proof.
  intros Hs Hcall.
  pose proof (temperature_over_time_serving w db Hs) as Hview.
  cbv zeta in Hview. rewrite Hcall in Hview.
  eexists. rewrite (serve_rule TemperatureOverTime).
  change (dispatch_request "/api/temperature_over_time")
    with temperature_over_time.
  simpl view. rewrite Hview.
  split; [reflexivity |]. split; [reflexivity |]. split; [reflexivity |].
  simpl. intros [H|[]]. discriminate H.
Qed.

Lemma archive_failure_gives_uniform_500_witness :
  exists w1,
    dispatch_request "/api/temperature_over_time"
      (Sample.initial (Serving Sample.shop) Sample.offline)
    = (Raise (HTTPException 500 "Error fetching temperature data."), w1) /\
    log w1
    = ([] ++ [temperature_record (RequestException "Connection refused")])%list
    /\
    serve "/api/temperature_over_time"
      (Sample.initial (Serving Sample.shop) Sample.offline)
    = ({| status := 500; body := server_error |}, w1) /\
    ~ In "Error fetching temperature data." (payload_texts server_error).
Proof.
  apply (archive_failure_gives_uniform_500
           (Sample.initial (Serving Sample.shop) Sample.offline) Sample.shop
           (RequestException "Connection refused"));
    reflexivity.
Defined.

(* ===================================================================== *)
(** * Further properties of app.py *)
(* ===================================================================== *)

(** ** The query executor *)

Lemma query_db_outcome (q : statement) (w : world) :
  query_db q w
  = match storage w with
    | Serving db =>
        match run q db with
        | inl rows => (Return rows, after_connect w)
        | inr msg =>
            (Raise (HTTPException 500 "Database error"),
             with_log (after_connect w) (log w ++ [database_error msg])%list)
        end
    | CannotOpen msg | CannotQuery msg =>
        (Raise (HTTPException 500 "Database error"),
         with_log (after_connect w) (log w ++ [database_error msg])%list)
    end.
Proof.
  unfold after_connect, query_db, try_except, with_connect, bind,
    connect, execute, fetchall, commit, rollback, raise, abort,
    logging_error, ret.
  destruct (storage w) as [db|m|m] eqn:Hs; simpl; rewrite ?Hs; simpl.
  - destruct (run q db) as [rows|m]; simpl; rewrite update_fresh;
      reflexivity.
  - reflexivity.
  - rewrite update_fresh. reflexivity.
Qed.

(** X1: [query_db] lets no sqlite3.Error escape.  When it raises, the
    exception is the abort with code 500 and description "Database error",
    the storage layer did fail, and exactly one record, carrying the
    message of the sqlite3.Error, has been appended to the log.  When it
    returns, the database is readable, the rows are those of the
    statement, and nothing has been logged. *)
Theorem query_db_returns_or_aborts (q : statement) (w : world) :
  match query_db q w with
  | (Return rows, w') =>
      log w' = log w /\
      exists db, storage w = Serving db /\ run q db = inl rows
  | (Raise e, w') =>
      e = HTTPException 500 "Database error" /\
      exists msg,
        failure q (storage w) = Some msg /\
        log w' = (log w ++ [database_error msg])%list
  end.
Proof.
  rewrite query_db_outcome. unfold failure, after_connect.
  destruct (storage w) as [db|m|m] eqn:Hs.
  - destruct (run q db) as [rows|m] eqn:Hr; simpl.
    + split; trivial. now exists db.
    + split; trivial. now exists m.
  - simpl. split; trivial. now exists m.
  - simpl. split; trivial. now exists m.
Qed.

(** ** What a request leaves behind *)

Lemma guarded_query {A} (q : statement) (rest : list row -> M A)
  (format description : string) (w : world) :
  try_except (bind (query_db q) rest) is_exception
    (fun e => bind (logging_error format e)
                (fun _ => abort 500 description)) w
  = match query_db q w with
    | (Return rows, w1) =>
        match rest rows w1 with
        | (Return a, w2) => (Return a, w2)
        | (Raise e, w2) =>
            (Raise (HTTPException 500 description),
             with_log w2 (log w2 ++ [{| fmt := format; arg := e |}])%list)
        end
    | (Raise e, w1) =>
        (Raise (HTTPException 500 description),
         with_log w1 (log w1 ++ [{| fmt := format; arg := e |}])%list)
    end.
Proof.
  unfold try_except, bind.
  destruct (query_db q w) as [[rows|e] w1]; reflexivity.
Qed.

Lemma failed_query_world (w : world) (msg format : string) :
  with_log (with_log (after_connect w) (log w ++ [database_error msg])%list)
    (log (with_log (after_connect w) (log w ++ [database_error msg])%list)
     ++ [{| fmt := format; arg := HTTPException 500 "Database error" |}])%list
  = with_log (after_connect w) (log w ++ failure_records msg format)%list.
Proof.
  unfold with_log, failure_records. simpl. now rewrite <- app_assoc.
Qed.

Ltac failed_query :=
  rewrite failed_query_world; eexists; eexists; reflexivity.

Ltac two_columns cells first second :=
  rewrite (bind_return _ _ _ _ _
             (column_cells 0 cells first _ _ (fun x => eq_refl)));
  rewrite (bind_return _ _ _ _ _
             (column_cells 1 cells second _ _ (fun x => eq_refl)));
  eexists; reflexivity.

(** Each SQL-only view ends in one of two ways. *)
Lemma sql_view_outcome (r : route) (q : statement) (w : world) :
  In r sql_only_routes ->
  query_of r = Some q ->
  match failure q (storage w) with
  | Some msg =>
      exists format description,
        view r w
        = (Raise (HTTPException 500 description),
           with_log (after_connect w)
             (log w ++ failure_records msg format)%list)
  | None => exists doc, view r w = (Return (jsonify doc), after_connect w)
  end.
Proof.
  intros Hin Hq.
  destruct r; simpl in Hq; inversion Hq; subst q; clear Hq;
    try (exfalso; simpl in Hin; intuition discriminate); clear Hin;
    simpl view;
    unfold orders_over_time, low_stock_levels, most_popular_products,
      payment_method_popularity;
    rewrite guarded_query, query_db_outcome; unfold failure;
    destruct (storage w) as [db|m|m] eqn:Hs; try failed_query.
  - set (cells := fun r : option string * Z =>
                    [of_text (fst r); Integer (snd r)]).
    change (run SelectOrdersOverTime db)
      with (@inl (list row) string (map cells (orders_per_date db))).
    cbv iota.
    two_columns cells (fun r : option string * Z => of_text (fst r))
      (fun r : option string * Z => Integer (snd r)).
  - set (cells := fun r : option string * option Z =>
                    [of_text (fst r); of_int (snd r)]).
    change (run SelectLowStock db)
      with (@inl (list row) string (map cells (stock_by_quantity db))).
    cbv iota.
    two_columns cells (fun r : option string * option Z => of_text (fst r))
      (fun r : option string * option Z => of_int (snd r)).
  - set (cells := fun r : Z * option string * option Z =>
                    [Integer (fst (fst r)); of_text (snd (fst r));
                     of_int (snd r)]).
    change (run SelectMostPopular db)
      with (match most_popular db with
            | Some rows => @inl (list row) string (map cells rows)
            | None => inr "integer overflow"
            end).
    destruct (most_popular db) as [rows|]; [| failed_query].
    rewrite (bind_return _ _ _ _ _
               (column_cells 0 cells (fun r => Integer (fst (fst r))) _ _
                  (fun x => eq_refl))).
    rewrite (bind_return _ _ _ _ _
               (column_cells 1 cells (fun r => of_text (snd (fst r))) _ _
                  (fun x => eq_refl))).
    rewrite (bind_return _ _ _ _ _
               (column_cells 2 cells (fun r => of_int (snd r)) _ _
                  (fun x => eq_refl))).
    eexists. reflexivity.
  - set (cells := fun r : option string * Z =>
                    [of_text (fst r); Integer (snd r)]).
    change (run SelectPaymentPopularity db)
      with (@inl (list row) string (map cells (payments_per_method db))).
    cbv iota.
    two_columns cells (fun r : option string * Z => of_text (fst r))
      (fun r : option string * Z => Integer (snd r)).
Qed.

Lemma temperature_over_time_failing (w : world) (msg : string) :
  failure SelectDateRange (storage w) = Some msg ->
  temperature_over_time w
  = (Raise (HTTPException 500 "Error fetching temperature data."),
     with_log (after_connect w)
       (log w ++ failure_records msg
                   "Error in /api/temperature_over_time: %s")%list).
Proof.
  unfold temperature_over_time, failure.
  rewrite guarded_query, query_db_outcome.
  destruct (storage w) as [db|m|m] eqn:Hs.
  - unfold run. destruct (date_range db). discriminate.
  - intros [= ->]. now rewrite failed_query_world.
  - intros [= ->]. now rewrite failed_query_world.
Qed.

Lemma date_range_never_fails (w : world) (db : database) :
  storage w = Serving db -> failure SelectDateRange (storage w) = None.
Proof. intros ->. unfold failure, run. now destruct (date_range db). Qed.

Lemma after_connect_log (w : world) : log (after_connect w) = log w.
Proof. unfold after_connect. now destruct (storage w). Qed.

Lemma after_connect_sent (w : world) : sent (after_connect w) = sent w.
Proof. unfold after_connect. now destruct (storage w). Qed.

Lemma match_request_rule (r : route) : match_request (rule r) = Some r.
Proof. destruct r; reflexivity. Qed.

Lemma match_request_sound (path : string) (r : route) :
  match_request path = Some r -> path = rule r.
Proof.
  unfold match_request. intros H. apply find_some in H as [_ H].
  symmetry. now apply String.eqb_eq.
Qed.

(** How a request to a route that queries the database ends. *)
Lemma api_request_outcome (r : route) (q : statement) (w : world) :
  query_of r = Some q ->
  match failure q (storage w), storage w with
  | Some msg, _ =>
      exists format,
        serve (rule r) w
        = ({| status := 500; body := server_error |},
           with_log (after_connect w)
             (log w ++ failure_records msg format)%list)
  | None, Serving db =>
      match r with
      | TemperatureOverTime =>
          let request := params (of_text (fst (date_range db)))
                           (of_text (snd (date_range db))) in
          let w2 := with_sent (after_connect w) (sent w ++ [request])%list in
          serve (rule r) w
          = match call_result (archive w request) with
            | inl doc => (jsonify doc, w2)
            | inr e =>
                ({| status := 500; body := server_error |},
                 with_log w2 (log w ++ [temperature_record e])%list)
            end
      | _ => exists doc, serve (rule r) w = (jsonify doc, after_connect w)
      end
  | None, _ => False
  end.
Proof.
  intros Hq. rewrite serve_rule.
  assert (Hsql : r = TemperatureOverTime \/ In r sql_only_routes).
  { destruct r; simpl in *; try discriminate; auto 10. }
  destruct Hsql as [-> | Hin].
  - inversion Hq; subst q. simpl view.
    destruct (failure SelectDateRange (storage w)) as [msg|] eqn:Hf.
    + rewrite (temperature_over_time_failing w msg Hf). eexists. reflexivity.
    + destruct (storage w) as [db|m|m] eqn:Hs; try discriminate Hf.
      rewrite (temperature_over_time_serving w db Hs). cbv zeta.
      unfold after_connect. rewrite Hs.
      now destruct (call_result _).
  - pose proof (sql_view_outcome r q w Hin Hq) as Hview.
    destruct (failure q (storage w)) as [msg|] eqn:Hf.
    + destruct Hview as (format & description & ->). now exists format.
    + destruct Hview as (doc & ->).
      destruct (storage w) as [db|m|m] eqn:Hs; try discriminate Hf.
      destruct r; simpl in Hin; try (exfalso; intuition discriminate);
        now exists doc.
Qed.

Lemma query_of_none (r : route) : query_of r = None -> r = Index.
Proof. destruct r; simpl; congruence. Qed.

(** X4: a GET request to one of the five /api/ rules is answered with
    status 200 or with status 500.  A 500 always carries the body
    {"error": "Internal server error"} and comes with at least one new
    record of logging.error, after the records that were there before.  A
    200 from a route that does not call the archive comes without any
    record of logging.error. *)
Theorem status_and_log_discipline (r : route) (w : world) :
  In r api_routes ->
  (status (fst (serve (rule r) w)) = 200%Z /\
   (r <> TemperatureOverTime -> log (snd (serve (rule r) w)) = log w)) \/
  (fst (serve (rule r) w) = {| status := 500; body := server_error |} /\
   exists record records,
     log (snd (serve (rule r) w)) = (log w ++ record :: records)%list).
Proof.
  intros Hin.
  assert (Hq : exists q, query_of r = Some q).
  { destruct r; simpl in Hin; try (exfalso; intuition discriminate);
      eexists; reflexivity. }
  destruct Hq as (q & Hq).
  pose proof (api_request_outcome r q w Hq) as H.
  destruct (failure q (storage w)) as [msg|].
  - destruct H as (format & ->). right. simpl.
    split; trivial. do 2 eexists. reflexivity.
  - destruct (storage w) as [db|m|m]; try contradiction.
    destruct r; try (destruct H as (doc & ->); left; simpl;
                     split; [reflexivity | intros _; apply after_connect_log]).
    cbv zeta in H. rewrite H.
    destruct (call_result _) as [doc|e]; simpl.
    + left. split; [reflexivity | congruence].
    + right. split; trivial. do 2 eexists. reflexivity.
Qed.

Lemma status_and_log_discipline_witness :
  (status (fst (serve "/api/orders_over_time"
                  (Sample.initial (Serving Sample.shop) Sample.offline)))
   = 200%Z /\
   (OrdersOverTime <> TemperatureOverTime ->
    log (snd (serve "/api/orders_over_time"
                (Sample.initial (Serving Sample.shop) Sample.offline)))
    = [])) \/
  (fst (serve "/api/orders_over_time"
          (Sample.initial (Serving Sample.shop) Sample.offline))
   = {| status := 500; body := server_error |} /\
   exists record records,
     log (snd (serve "/api/orders_over_time"
                 (Sample.initial (Serving Sample.shop) Sample.offline)))
     = ([] ++ record :: records)%list).
Proof.
  apply (status_and_log_discipline OrdersOverTime
           (Sample.initial (Serving Sample.shop) Sample.offline)).
  simpl. tauto.
Defined.

(** X5: a request opens at most one storage connection and closes none.
    A request to one of the five /api/ routes opens exactly one, unless
    sqlite3.connect itself fails, and leaves it open; the page route and
    unregistered paths open none.  Connections opened by earlier requests
    are left as they were. *)
Theorem connections_per_request (path : string) (w : world) :
  connections (snd (serve path w))
  = match match_request path with
    | None | Some Index => connections w
    | Some _ =>
        match storage w with
        | CannotOpen _ => connections w
        | _ => (connections w ++ [opened])%list
        end
    end.
Proof.
  destruct (match_request path) as [r|] eqn:Hr.
  - apply match_request_sound in Hr. subst path.
    assert (Hc : connections (after_connect w)
                 = match storage w with
                   | CannotOpen _ => connections w
                   | _ => (connections w ++ [opened])%list
                   end).
    { unfold after_connect. now destruct (storage w). }
    destruct (query_of r) as [q|] eqn:Hq.
    + pose proof (api_request_outcome r q w Hq) as H.
      replace (match r with
               | Index => connections w
               | _ => match storage w with
                      | CannotOpen _ => connections w
                      | _ => (connections w ++ [opened])%list
                      end
               end) with (connections (after_connect w))
        by (rewrite Hc; destruct r; trivial; discriminate Hq).
      destruct (failure q (storage w)) as [msg|].
      * destruct H as (format & ->). reflexivity.
      * destruct (storage w) as [db|m|m]; try contradiction.
        destruct r; try (destruct H as (doc & ->); reflexivity).
        cbv zeta in H. rewrite H. now destruct (call_result _).
    + apply query_of_none in Hq. subst r. reflexivity.
  - unfold serve, dispatch_request. rewrite Hr. reflexivity.
Qed.

(** X6: the archive is called by /api/temperature_over_time only, at most
    once per request, and only after the date-range query has succeeded;
    the request then carries MIN(order_date) and MAX(order_date).  When
    the query fails, and on every other path, nothing is sent. *)
Theorem archive_requests_per_request (path : string) (w : world) :
  sent (snd (serve path w))
  = match match_request path, storage w with
    | Some TemperatureOverTime, Serving db =>
        (sent w ++ [params (of_text (fst (date_range db)))
                      (of_text (snd (date_range db)))])%list
    | _, _ => sent w
    end.
Proof.
  destruct (match_request path) as [r|] eqn:Hr.
  - apply match_request_sound in Hr. subst path.
    destruct (query_of r) as [q|] eqn:Hq.
    + pose proof (api_request_outcome r q w Hq) as H.
      destruct (failure q (storage w)) as [msg|] eqn:Hf.
      * destruct H as (format & ->). simpl. rewrite after_connect_sent.
        destruct r; trivial. inversion Hq; subst q.
        destruct (storage w) as [db|m|m] eqn:Hs; trivial.
        rewrite <- Hs, (date_range_never_fails w db Hs) in Hf.
        discriminate Hf.
      * destruct (storage w) as [db|m|m] eqn:Hs; try contradiction.
        destruct r; try (destruct H as (doc & ->); simpl;
                         rewrite after_connect_sent; reflexivity).
        cbv zeta in H. rewrite H. now destruct (call_result _).
    + apply query_of_none in Hq. subst r. reflexivity.
  - unfold serve, dispatch_request. rewrite Hr. reflexivity.
Qed.

(** X7: a storage failure is logged twice.  On every /api/ route the log
    grows by exactly two records: the one of [query_db], with the
    sqlite3.Error, and the one of the view, whose except clause has caught
    the abort raised by [query_db]. *)
Theorem storage_failure_logs_twice (r : route) (q : statement) (w : world)
  (msg : string) :
  query_of r = Some q ->
  failure q (storage w) = Some msg ->
  exists format,
    log (snd (serve (rule r) w))
    = (log w ++ [database_error msg;
                 {| fmt := format;
                    arg := HTTPException 500 "Database error" |}])%list.
Proof.
  intros Hq Hf. pose proof (api_request_outcome r q w Hq) as H.
  rewrite Hf in H. destruct H as (format & ->). now exists format.
Qed.

Lemma storage_failure_logs_twice_witness :
  exists format,
    log (snd (serve "/api/low_stock_levels"
                (Sample.initial (CannotOpen "unable to open database file")
                   Sample.offline)))
    = ([] ++ [database_error "unable to open database file";
              {| fmt := format;
                 arg := HTTPException 500 "Database error" |}])%list.
Proof.
  apply (storage_failure_logs_twice LowStockLevels SelectLowStock
           (Sample.initial (CannotOpen "unable to open database file")
              Sample.offline)
           "unable to open database file");
    reflexivity.
Defined.

(** ** What a response depends on *)

Lemma agree_refl (w : world) : agree w w.
Proof. now split. Qed.

Lemma agree_sym (w1 w2 : world) : agree w1 w2 -> agree w2 w1.
Proof. intros [H1 H2]. now split. Qed.

Lemma agree_trans (w1 w2 w3 : world) :
  agree w1 w2 -> agree w2 w3 -> agree w1 w3.
Proof. intros [H1 H2] [H3 H4]. split; congruence. Qed.

Lemma steady_after {A} (m : M A) (w : world) :
  steady m -> agree (snd (m w)) w.
Proof. intros H. apply (H w w (agree_refl w)). Qed.

Lemma steady_pure {A} (o : outcome A) : steady (fun w => (o, w)).
Proof. intros w1 w2 H. split; [reflexivity | apply agree_refl]. Qed.

Lemma steady_ret {A} (a : A) : steady (ret a).
Proof. apply (steady_pure (Return a)). Qed.

Lemma steady_raise {A} (e : exn) : steady (@raise A e).
Proof. apply (steady_pure (Raise e)). Qed.

Lemma steady_abort {A} (code : Z) (description : string) :
  steady (@abort A code description).
Proof. apply steady_raise. Qed.

Lemma steady_bind {A B} (m : M A) (k : A -> M B) :
  steady m -> (forall a, steady (k a)) -> steady (bind m k).
Proof.
  intros Hm Hk w1 w2 H. unfold bind.
  destruct (Hm w1 w2 H) as [Hfst H1].
  pose proof (steady_after m w2 Hm) as H2.
  destruct (m w1) as [[a|e] w1'], (m w2) as [[a'|e'] w2'];
    simpl in *; try discriminate.
  - injection Hfst as <-.
    assert (H12 : agree w1' w2').
    { eapply agree_trans; [exact H1 |].
      eapply agree_trans; [exact H | now apply agree_sym]. }
    destruct (Hk a w1' w2' H12) as [Hk1 Hk2].
    split; [exact Hk1 | eapply agree_trans; eauto].
  - injection Hfst as <-. now split.
Qed.

Lemma steady_try {A} (m : M A) (class : exn -> bool) (handler : exn -> M A) :
  steady m -> (forall e, steady (handler e)) ->
  steady (try_except m class handler).
Proof.
  intros Hm Hh w1 w2 H. unfold try_except.
  destruct (Hm w1 w2 H) as [Hfst H1].
  pose proof (steady_after m w2 Hm) as H2.
  destruct (m w1) as [[a|e] w1'], (m w2) as [[a'|e'] w2'];
    simpl in *; try discriminate.
  - now split.
  - injection Hfst as <-. destruct (class e); [| now split].
    assert (H12 : agree w1' w2').
    { eapply agree_trans; [exact H1 |].
      eapply agree_trans; [exact H | now apply agree_sym]. }
    destruct (Hh e w1' w2' H12) as [Hk1 Hk2].
    split; [exact Hk1 | eapply agree_trans; eauto].
Qed.

Lemma steady_logging_error (format : string) (e : exn) :
  steady (logging_error format e).
Proof. intros w1 w2 H. split; [reflexivity | now split]. Qed.

Lemma steady_requests_get (request : api_request) :
  steady (requests_get request).
Proof.
  intros w1 w2 [_ Ha]. unfold requests_get. rewrite Ha.
  destruct (archive w2 request); (split; [reflexivity |]);
    split; simpl; congruence.
Qed.

Lemma steady_raise_for_status (r : http_response) :
  steady (raise_for_status r).
Proof.
  unfold raise_for_status.
  destruct ((400 <=? status_code r) && (status_code r <? 600))%Z;
    first [apply steady_ret | apply steady_raise].
Qed.

Lemma steady_response_json (r : http_response) : steady (response_json r).
Proof.
  unfold response_json.
  destruct (document r); [apply steady_ret | apply steady_raise].
Qed.

Lemma steady_item {A} (xs : list A) (i : nat) : steady (item xs i).
Proof.
  unfold item.
  destruct (nth_error xs i); [apply steady_ret | apply steady_raise].
Qed.

Lemma steady_unpack2 {A} (t : list A) : steady (unpack2 t).
Proof.
  destruct t as [|a [|b [|c t]]];
    first [apply steady_ret | apply steady_raise].
Qed.

Lemma steady_query_db (q : statement) : steady (query_db q).
Proof.
  intros w1 w2 [Hs Ha]. rewrite !query_db_outcome. unfold after_connect.
  rewrite <- Hs.
  destruct (storage w1) as [db|m|m] eqn:Hs1;
    [destruct (run q db) |..]; simpl;
    (split; [reflexivity |]); split; simpl; congruence.
Qed.

Ltac steady :=
  repeat first
    [ apply steady_query_db
    | apply steady_try; [| intros ?]
    | apply steady_bind; [| intros ?]
    | apply steady_logging_error
    | apply steady_requests_get
    | apply steady_raise_for_status
    | apply steady_response_json
    | apply steady_item
    | apply steady_unpack2
    | apply steady_ret
    | apply steady_raise
    | apply steady_abort ].

Lemma steady_column (i : nat) (result : list row) : steady (column i result).
Proof.
  unfold column. induction result as [|r rest IH]; simpl.
  - apply steady_ret.
  - apply steady_bind; [steady |]. intros v.
    apply steady_bind; [exact IH |]. intros vs. apply steady_ret.
Qed.

Lemma steady_view (r : route) : steady (view r).
Proof.
  destruct r; simpl;
    unfold index, render_template, temperature_over_time, orders_over_time,
      low_stock_levels, most_popular_products, payment_method_popularity.
  - apply steady_ret.
  - steady.
  - apply steady_try; [| intros ?; steady].
    apply steady_bind; [steady |]. intros result.
    repeat (apply steady_bind; [apply steady_column | intros ?]).
    apply steady_ret.
  - apply steady_try; [| intros ?; steady].
    apply steady_bind; [steady |]. intros result.
    repeat (apply steady_bind; [apply steady_column | intros ?]).
    apply steady_ret.
  - apply steady_try; [| intros ?; steady].
    apply steady_bind; [steady |]. intros result.
    repeat (apply steady_bind; [apply steady_column | intros ?]).
    apply steady_ret.
  - apply steady_try; [| intros ?; steady].
    apply steady_bind; [steady |]. intros result.
    repeat (apply steady_bind; [apply steady_column | intros ?]).
    apply steady_ret.
Qed.

Lemma steady_dispatch (path : string) : steady (dispatch_request path).
Proof.
  unfold dispatch_request. destruct (match_request path).
  - apply steady_view.
  - apply steady_abort.
Qed.

Lemma serve_agrees (path : string) (w1 w2 : world) :
  agree w1 w2 ->
  fst (serve path w1) = fst (serve path w2) /\ agree (snd (serve path w1)) w1.
Proof.
  intros H. unfold serve.
  destruct (steady_dispatch path w1 w2 H) as [Hfst Hw].
  destruct (dispatch_request path w1) as [[r|e] w1'],
    (dispatch_request path w2) as [[r'|e'] w2'];
    simpl in *; try discriminate; injection Hfst as <-; now split.
Qed.

(** X8: the response to a request depends on the database and on the
    behaviour of the archive only: not on the log, not on the connections
    left open, not on the requests sent before. *)
Theorem response_depends_on_database_and_archive (path : string)
  (w1 w2 : world) :
  storage w1 = storage w2 ->
  archive w1 = archive w2 ->
  fst (serve path w1) = fst (serve path w2).
Proof. intros Hs Ha. now apply serve_agrees. Qed.

Lemma response_depends_on_database_and_archive_witness :
  fst (serve "/api/payment_method_popularity"
         (Sample.initial (Serving Sample.shop) Sample.strict_archive))
  = fst (serve "/api/payment_method_popularity"
           {| storage := Serving Sample.shop;
              archive := Sample.strict_archive;
              log := [database_error "disk I/O error"];
              connections := [opened; opened];
              sent := [params Null Null] |}).
Proof.
  apply (response_depends_on_database_and_archive
           "/api/payment_method_popularity"
           (Sample.initial (Serving Sample.shop) Sample.strict_archive));
    reflexivity.
Defined.

(** X9: no request changes the answer to a later one.  After any request
    has been served, a request to any path gets the response it would have
    got before; in particular a repeated request gets the same response. *)
Theorem earlier_requests_do_not_matter (earlier path : string) (w : world) :
  fst (serve path (snd (serve earlier w))) = fst (serve path w).
Proof.
  apply serve_agrees.
  apply (serve_agrees earlier w w (agree_refl w)).
Qed.

(** ** The date range of the temperature request *)

Lemma string_leb_refl (a : string) : String.leb a a = true.
Proof. now destruct (String.leb_total a a). Qed.

Lemma string_ltb_leb (a b : string) :
  String.ltb a b = true -> String.leb a b = true.
Proof.
  unfold String.ltb, String.leb. now destruct (String.compare a b).
Qed.

Lemma string_not_ltb_leb (a b : string) :
  String.ltb a b = false -> String.leb b a = true.
Proof.
  unfold String.ltb, String.leb. rewrite (String.compare_antisym b a).
  now destruct (String.compare a b).
Qed.

Lemma min_step_below (acc : option string) (d : string) :
  exists x, min_step acc (Some d) = Some x /\
            String.leb x d = true /\
            (x = d \/ acc = Some x) /\
            (forall a, acc = Some a -> String.leb x a = true).
Proof.
  destruct acc as [m|]; simpl.
  - destruct (String.ltb d m) eqn:E.
    + exists d. repeat split; auto using string_leb_refl.
      intros a [= <-]. now apply string_ltb_leb.
    + exists m. repeat split; auto using string_not_ltb_leb.
      intros a [= <-]. apply string_leb_refl.
  - exists d. repeat split; auto using string_leb_refl. discriminate.
Qed.

Lemma max_step_above (acc : option string) (d : string) :
  exists x, max_step acc (Some d) = Some x /\
            String.leb d x = true /\
            (x = d \/ acc = Some x) /\
            (forall a, acc = Some a -> String.leb a x = true).
Proof.
  destruct acc as [m|]; simpl.
  - destruct (String.ltb m d) eqn:E.
    + exists d. repeat split; auto using string_leb_refl.
      intros a [= <-]. now apply string_ltb_leb.
    + exists m. repeat split; auto using string_not_ltb_leb.
      intros a [= <-]. apply string_leb_refl.
  - exists d. repeat split; auto using string_leb_refl. discriminate.
Qed.

Lemma fold_min_step (dates : list (option string)) :
  forall acc,
    (forall a, acc = Some a ->
       exists x, fold_left min_step dates acc = Some x /\
                 String.leb x a = true) /\
    (forall d, In (Some d) dates ->
       exists x, fold_left min_step dates acc = Some x /\
                 String.leb x d = true) /\
    (forall x, fold_left min_step dates acc = Some x ->
       acc = Some x \/ In (Some x) dates).
Proof.
  induction dates as [|v dates IH]; intros acc; simpl.
  - repeat split.
    + intros a ->. exists a. auto using string_leb_refl.
    + intros d [].
    + auto.
  - destruct (IH (min_step acc v)) as (IH1 & IH2 & IH3).
    destruct v as [d|].
    + destruct (min_step_below acc d) as (x & Hx & Hxd & Hfrom & Hbelow).
      destruct (IH1 x Hx) as (y & Hy & Hyx).
      repeat split.
      * intros a Ha. exists y. split; trivial.
        eapply string_leb_trans; eauto.
      * intros d' [[= <-]|Hin]; [| now apply IH2].
        exists y. split; trivial. eapply string_leb_trans; eauto.
      * intros z Hz. destruct (IH3 z Hz) as [E|Hin]; [| auto].
        rewrite Hx in E. injection E as <-.
        destruct Hfrom as [->|Hacc]; auto.
    + simpl in *. repeat split; trivial.
      * intros d [E|Hin]; [discriminate | now apply IH2].
      * intros z Hz. destruct (IH3 z Hz); auto.
Qed.

Lemma fold_max_step (dates : list (option string)) :
  forall acc,
    (forall a, acc = Some a ->
       exists x, fold_left max_step dates acc = Some x /\
                 String.leb a x = true) /\
    (forall d, In (Some d) dates ->
       exists x, fold_left max_step dates acc = Some x /\
                 String.leb d x = true) /\
    (forall x, fold_left max_step dates acc = Some x ->
       acc = Some x \/ In (Some x) dates).
Proof.
  induction dates as [|v dates IH]; intros acc; simpl.
  - repeat split.
    + intros a ->. exists a. auto using string_leb_refl.
    + intros d [].
    + auto.
  - destruct (IH (max_step acc v)) as (IH1 & IH2 & IH3).
    destruct v as [d|].
    + destruct (max_step_above acc d) as (x & Hx & Hxd & Hfrom & Habove).
      destruct (IH1 x Hx) as (y & Hy & Hyx).
      repeat split.
      * intros a Ha. exists y. split; trivial.
        eapply string_leb_trans; eauto.
      * intros d' [[= <-]|Hin]; [| now apply IH2].
        exists y. split; trivial. eapply string_leb_trans; eauto.
      * intros z Hz. destruct (IH3 z Hz) as [E|Hin]; [| auto].
        rewrite Hx in E. injection E as <-.
        destruct Hfrom as [->|Hacc]; auto.
    + simpl in *. repeat split; trivial.
      * intros d [E|Hin]; [discriminate | now apply IH2].
      * intros z Hz. destruct (IH3 z Hz); auto.
Qed.

Lemma dated_order (db : database) (d : string) :
  In (Some d) (map order_date (orders db)) ->
  exists o, In o (orders db) /\ order_date o = Some d.
Proof.
  intros H. apply in_map_iff in H as (o & Ho & Hin). now exists o.
Qed.

(** X10: the date range that /api/temperature_over_time asks the archive
    for encloses every order date: as soon as one order has a date, the
    start date is at most, and the end date at least, every order date (as
    byte strings), and both are dates of orders.  When no order has a
    date, and so when there are no orders, both are NULL. *)
Theorem date_range_encloses_orders (db : database) :
  (forall o d,
      In o (orders db) -> order_date o = Some d ->
      exists first last,
        date_range db = (Some first, Some last) /\
        String.leb first d = true /\ String.leb d last = true) /\
  (forall first,
      fst (date_range db) = Some first ->
      exists o, In o (orders db) /\ order_date o = Some first) /\
  (forall last,
      snd (date_range db) = Some last ->
      exists o, In o (orders db) /\ order_date o = Some last) /\
  ((forall o, In o (orders db) -> order_date o = None) ->
   date_range db = (None, None)).
Proof.
  unfold date_range.
  destruct (fold_min_step (map order_date (orders db)) None)
    as (_ & Hmin & Hmin_from).
  destruct (fold_max_step (map order_date (orders db)) None)
    as (_ & Hmax & Hmax_from).
  assert (Hfirst : forall first,
             fold_left min_step (map order_date (orders db)) None
             = Some first ->
             exists o, In o (orders db) /\ order_date o = Some first).
  { intros first H. destruct (Hmin_from first H) as [E|Hin];
      [discriminate | now apply dated_order]. }
  assert (Hlast : forall last,
             fold_left max_step (map order_date (orders db)) None
             = Some last ->
             exists o, In o (orders db) /\ order_date o = Some last).
  { intros last H. destruct (Hmax_from last H) as [E|Hin];
      [discriminate | now apply dated_order]. }
  repeat split; trivial.
  - intros o d Hin Hd.
    assert (Hd' : In (Some d) (map order_date (orders db))).
    { rewrite <- Hd. now apply in_map. }
    destruct (Hmin d Hd') as (first & -> & Hle1).
    destruct (Hmax d Hd') as (last & -> & Hle2).
    now exists first, last.
  - intros Hnone. simpl in *.
    destruct (fold_left min_step _ None) as [first|] eqn:E1.
    { destruct (Hfirst first eq_refl) as (o & Hin & Hd).
      rewrite (Hnone o Hin) in Hd. discriminate. }
    destruct (fold_left max_step _ None) as [last|] eqn:E2; trivial.
    destruct (Hlast last eq_refl) as (o & Hin & Hd).
    rewrite (Hnone o Hin) in Hd. discriminate.
Qed.

(** X11: when the archive answers the request with a status outside
    400..599 and a body that response.json() parses, the value it parsed
    is what /api/temperature_over_time hands to jsonify, with status
    200. *)
Theorem temperature_relays_document (w : world) (db : database) (doc : json) :
  storage w = Serving db ->
  call_result
    (archive w (params (of_text (fst (date_range db)))
                  (of_text (snd (date_range db))))) = inl doc ->
  fst (serve "/api/temperature_over_time" w) = jsonify doc.
Proof.
  intros Hs Hcall.
  rewrite (serve_rule TemperatureOverTime). simpl view.
  rewrite (temperature_over_time_serving w db Hs). cbv zeta.
  rewrite Hcall. reflexivity.
Qed.

Lemma temperature_relays_document_witness :
  fst (serve "/api/temperature_over_time"
         (Sample.initial (Serving Sample.shop) Sample.strict_archive))
  = jsonify
      (JObj [("daily",
              JObj [("time", JArr [JStr "2024-01-01"]);
                    ("temperature_2m_max", JArr [JFloat "9.4"])])]).
Proof.
  apply (temperature_relays_document
           (Sample.initial (Serving Sample.shop) Sample.strict_archive)
           Sample.shop);
    reflexivity.
Defined.

Lemma date_range_encloses_orders_witness :
  exists first last,
    date_range Sample.shop = (Some first, Some last) /\
    String.leb first "2024-01-02" = true /\
    String.leb "2024-01-02" last = true.
Proof.
  destruct (date_range_encloses_orders Sample.shop) as [H _].
  apply (H {| order_id := 1; order_date := Some "2024-01-02" |}).
  - simpl. auto.
  - reflexivity.
Defined.

(** ** Low stock levels *)

Lemma low_stock_levels_serving (w : world) (db : database) :
  storage w = Serving db ->
  fst (serve "/api/low_stock_levels" w)
  = {| status := 200;
       body := Json (JObj
         [("products", JArr (map json_text (map fst (stock_by_quantity db))));
          ("quantities",
           JArr (map json_int (map snd (stock_by_quantity db))))]) |}.
Proof.
  intros Hs. rewrite (serve_rule LowStockLevels). simpl view.
  unfold low_stock_levels.
  set (cells := fun r : option string * option Z =>
                  [of_text (fst r); of_int (snd r)]).
  assert (Hr : run SelectLowStock db
               = inl (map cells (stock_by_quantity db)))
    by reflexivity.
  erewrite (view_rows _ _ _ _ w db _ _ Hs Hr).
  - simpl. rewrite !map_map. reflexivity.
  - intros w1.
    rewrite (bind_return _ _ w1 w1 _
               (column_cells 0 cells (fun r => of_text (fst r)) _ w1
                  (fun x => eq_refl))).
    rewrite (bind_return _ _ w1 w1 _
               (column_cells 1 cells (fun r => of_int (snd r)) _ w1
                  (fun x => eq_refl))).
    reflexivity.
Qed.

Lemma in_join {A B} (on : A -> B -> bool) (l : list A) (r : list B)
  (a : A) (b : B) :
  In (a, b) (join on l r) <-> In a l /\ In b r /\ on a b = true.
Proof.
  unfold join. rewrite in_flat_map. split.
  - intros (x & Hx & Hin). apply in_map_iff in Hin as (y & [= <- <-] & Hy).
    apply filter_In in Hy. tauto.
  - intros (Ha & Hb & Hon). exists a. split; trivial.
    apply in_map. apply filter_In. tauto.
Qed.

Lemma stock_by_quantity_rows (db : database) (name : option string)
  (amount : option Z) :
  In (name, amount) (stock_by_quantity db) <->
  exists s p,
    In s (stock_level db) /\ In p (products db) /\
    stock_product_id s = Some (product_id p) /\
    name = product_name p /\ amount = quantity s.
Proof.
  unfold stock_by_quantity. split.
  - intros H. apply (Permutation_in _ (order_by_permutation _ _)) in H.
    apply in_map_iff in H as ([s p] & [= <- <-] & Hin).
    apply in_join in Hin as (Hs & Hp & Hon).
    exists s, p. repeat split; trivial.
    unfold references in Hon.
    destruct (stock_product_id s) as [i|]; [| discriminate].
    apply Z.eqb_eq in Hon. now subst.
  - intros (s & p & Hs & Hp & Href & -> & ->).
    apply (Permutation_in _
             (Permutation_sym (order_by_permutation _ _))).
    apply in_map_iff. exists (s, p). split; trivial.
    apply in_join. repeat split; trivial.
    unfold references. rewrite Href. apply Z.eqb_refl.
Qed.

Lemma stock_by_quantity_ascending (db : database) :
  ascending_int (map snd (stock_by_quantity db)).
Proof.
  unfold ascending_int, stock_by_quantity. apply strongly_sorted_map.
  apply (order_by_strongly_sorted (fun a b => int_leb (snd a) (snd b))).
  - intros a b. apply int_leb_total.
  - intros a b c. apply int_leb_trans.
Qed.

(** X12: on a readable database /api/low_stock_levels lists the stock
    rows by ascending quantity (NULL first), lowest stock first.  An entry
    appears exactly for a stock row and a product with the product_id of
    that row; a stock row whose product_id is NULL or names no product is
    left out. *)
Theorem low_stock_levels_lowest_first (w : world) (db : database) :
  storage w = Serving db ->
  exists names quantities,
    fst (serve "/api/low_stock_levels" w)
    = {| status := 200;
         body := Json (JObj [("products", JArr (map json_text names));
                             ("quantities",
                              JArr (map json_int quantities))]) |} /\
    List.length names = List.length quantities /\
    ascending_int quantities /\
    (forall name amount,
        In (name, amount) (combine names quantities) <->
        exists s p,
          In s (stock_level db) /\ In p (products db) /\
          stock_product_id s = Some (product_id p) /\
          name = product_name p /\ amount = quantity s).
Proof.
  intros Hs.
  exists (map fst (stock_by_quantity db)), (map snd (stock_by_quantity db)).
  split; [now apply low_stock_levels_serving |].
  split; [now rewrite !length_map |].
  split; [apply stock_by_quantity_ascending |].
  intros name amount.
  rewrite <- stock_by_quantity_rows.
  assert (E : combine (map fst (stock_by_quantity db))
                (map snd (stock_by_quantity db))
              = stock_by_quantity db).
  { induction (stock_by_quantity db) as [|[a b] l IH]; simpl; congruence. }
  now rewrite E.
Qed.

Lemma low_stock_levels_lowest_first_witness :
  exists names quantities,
    fst (serve "/api/low_stock_levels"
           (Sample.initial (Serving Sample.shop) Sample.offline))
    = {| status := 200;
         body := Json (JObj [("products", JArr (map json_text names));
                             ("quantities",
                              JArr (map json_int quantities))]) |} /\
    List.length names = List.length quantities /\
    ascending_int quantities /\
    (forall name amount,
        In (name, amount) (combine names quantities) <->
        exists s p,
          In s (stock_level Sample.shop) /\ In p (products Sample.shop) /\
          stock_product_id s = Some (product_id p) /\
          name = product_name p /\ amount = quantity s).
Proof.
  apply (low_stock_levels_lowest_first
           (Sample.initial (Serving Sample.shop) Sample.offline) Sample.shop).
  reflexivity.
Defined.

(** ** GROUP BY with any aggregate *)

Section GroupFold.
Context {R K S : Type}.
Variable key : R -> K.
Variable same : K -> K -> bool.
Variable init : S.
Variable step : S -> R -> S.
Hypothesis same_eq : forall a b, same a b = true <-> a = b.

Lemma same_refl (k : K) : same k k = true.
Proof. now apply same_eq. Qed.

Lemma feed_origin (k : K) (r : R) (groups : list (K * S)) :
  In k (map fst (feed key same init step r groups)) ->
  k = key r \/ In k (map fst groups).
Proof.
  induction groups as [|[k' s] rest IH]; simpl.
  - intros [H|[]]. now left.
  - destruct (same (key r) k'); simpl; intros [H|H]; auto.
    destruct (IH H); auto.
Qed.

Lemma feed_distinct (r : R) (groups : list (K * S)) :
  NoDup (map fst groups) ->
  NoDup (map fst (feed key same init step r groups)).
Proof.
  induction groups as [|[k' s] rest IH]; simpl; intros Hnd.
  - repeat constructor. intros [].
  - inversion Hnd as [|? ? Hnot Hrest]; subst.
    destruct (same (key r) k') eqn:E; simpl.
    + now constructor.
    + constructor; [| now apply IH].
      intros Hin. apply feed_origin in Hin as [->|Hin]; [| contradiction].
      rewrite same_refl in E. discriminate.
Qed.

(** Where a group of [feed r groups] comes from. *)
Lemma feed_member (k : K) (s : S) (r : R) (groups : list (K * S)) :
  NoDup (map fst groups) ->
  In (k, s) (feed key same init step r groups) ->
  (same (key r) k = true /\
   ((exists s0, In (k, s0) groups /\ s = step s0 r) \/
    (~ In k (map fst groups) /\ s = step init r))) \/
  (same (key r) k = false /\ In (k, s) groups).
Proof.
  induction groups as [|[k' s'] rest IH]; simpl; intros Hnd Hin.
  - destruct Hin as [[= <- <-]|[]]. left. split; [apply same_refl |].
    right. split; [tauto | reflexivity].
  - inversion Hnd as [|? ? Hnot Hrest]; subst.
    destruct (same (key r) k') eqn:E.
    + apply same_eq in E. subst k'.
      destruct Hin as [[= <- <-]|Hin].
      * left. split; [apply same_refl |]. left. exists s'. auto.
      * right. split; [| auto].
        destruct (same (key r) k) eqn:E'; trivial.
        apply same_eq in E'. subst k. exfalso. apply Hnot.
        apply in_map_iff. now exists (key r, s).
    + destruct Hin as [[= <- <-]|Hin]; [right; auto |].
      destruct (IH Hrest Hin) as [[Hk [(s0 & H0 & ->)|[Hno ->]]]|[Hk H0]].
      * left. split; trivial. left. exists s0. auto.
      * left. split; trivial. right. split; trivial.
        intros [<-|H]; [congruence | contradiction].
      * right. auto.
Qed.

Lemma grouped_feed (done : list R) (groups : list (K * S)) (r : R) :
  grouped key same init step done groups ->
  grouped key same init step (done ++ [r]) (feed key same init step r groups).
Proof.
  intros (Hnd & Hcover & Hfold). repeat split.
  - now apply feed_distinct.
  - intros x Hx. apply in_app_iff in Hx as [Hx|[<-|[]]].
    + apply (feed_keeps key same init step). auto.
    + now apply (feed_adds key same init step).
  - intros k s Hin. rewrite filter_app, fold_left_app. simpl.
    destruct (feed_member k s r groups Hnd Hin)
      as [[Hk [(s0 & H0 & ->)|[Hno ->]]]|[Hk H0]]; rewrite Hk; simpl.
    + f_equal. now apply Hfold.
    + f_equal. rewrite filter_none; trivial.
      intros x Hx. destruct (same (key x) k) eqn:E; trivial.
      apply same_eq in E. subst k. now destruct Hno; apply Hcover.
    + now apply Hfold.
Qed.

Lemma grouped_fold (rows : list R) :
  forall done groups,
    grouped key same init step done groups ->
    grouped key same init step (done ++ rows)
      (fold_left (fun g r => feed key same init step r g) rows groups).
Proof.
  induction rows as [|r rows IH]; intros done groups H; simpl.
  - now rewrite app_nil_r.
  - replace (done ++ r :: rows)%list with ((done ++ [r]) ++ rows)%list
      by now rewrite <- app_assoc.
    now apply IH, grouped_feed.
Qed.

Lemma group_by_grouped (rows : list R) :
  grouped key same init step rows (group_by key same init step rows).
Proof.
  apply (grouped_fold rows [] []). repeat split.
  - constructor.
  - intros r [].
  - intros k s [].
Qed.
End GroupFold.

Section GroupOrigin.
Context {R K S : Type}.
Variable key : R -> K.
Variable same : K -> K -> bool.
Variable init : S.
Variable step : S -> R -> S.

Lemma fold_feed_origin (k : K) (rows : list R) :
  forall groups,
    In k (map fst
      (fold_left (fun g r => feed key same init step r g) rows groups)) ->
    In k (map fst groups) \/ exists r, In r rows /\ key r = k.
Proof.
  induction rows as [|r rows IH]; intros groups H; simpl in *; auto.
  destruct (IH _ H) as [Hin|(x & Hx & <-)].
  - apply feed_origin in Hin as [->|Hin]; eauto.
  - eauto.
Qed.

(** Every group is the group of some row. *)
Lemma group_by_origin (k : K) (rows : list R) :
  In k (map fst (group_by key same init step rows)) ->
  exists r, In r rows /\ key r = k.
Proof.
  intros H. destruct (fold_feed_origin k rows [] H) as [[]|H']. exact H'.
Qed.
End GroupOrigin.

Lemma orders_per_date_from_orders (db : database) (d : option string) :
  In d (map fst (orders_per_date db)) ->
  exists o, In o (orders db) /\ order_date o = d.
Proof.
  unfold orders_per_date. intros H.
  apply (Permutation_in _ (Permutation_map fst (order_by_permutation _ _)))
    in H.
  now apply group_by_origin in H.
Qed.

Lemma strongly_sorted_weaken {A} (R R' : A -> A -> Prop) (l : list A) :
  (forall a b, R a b -> R' a b) ->
  StronglySorted R l -> StronglySorted R' l.
Proof.
  intros Himp. induction 1 as [|a l _ IH Hall]; constructor; trivial.
  eapply Forall_impl; [| exact Hall]. intros b. apply Himp.
Qed.

Lemma nodup_firstn {A} (n : nat) (l : list A) :
  NoDup l -> NoDup (firstn n l).
Proof.
  revert n. induction l as [|h t IH]; intros [|n] Hnd; simpl;
    try constructor.
  - inversion Hnd as [|? ? Hnot _]; subst. intros Hin. apply Hnot.
    eapply in_firstn; eauto.
  - apply IH. now inversion Hnd.
Qed.

(** ** Payments per method *)

Lemma payments_per_method_distinct (db : database) :
  NoDup (map fst (payments_per_method db)).
Proof.
  unfold payments_per_method.
  apply (Permutation_NoDup
           (Permutation_sym (Permutation_map fst (order_by_permutation _ _)))).
  apply (group_by_grouped _ text_eqb 0%Z _ text_eqb_eq).
Qed.

Lemma payments_per_method_descending (db : database) :
  descending_count (map snd (payments_per_method db)).
Proof.
  unfold descending_count, payments_per_method.
  apply strongly_sorted_map.
  apply strongly_sorted_weaken
    with (R := fun a b : option string * Z => (snd b <=? snd a)%Z = true).
  - intros a b. apply Z.leb_le.
  - apply (order_by_strongly_sorted (fun a b => (snd b <=? snd a)%Z)).
    + intros a b. rewrite !Z.leb_le. lia.
    + intros a b c. rewrite !Z.leb_le. lia.
Qed.

Lemma payments_per_method_counts (db : database) (name : option string)
  (n : Z) :
  In (name, n) (payments_per_method db) -> n = payments_by db name.
Proof.
  unfold payments_per_method. intros Hin.
  apply (Permutation_in _ (order_by_permutation _ _)) in Hin.
  apply (group_by_member _ text_eqb _ (fun _ => 1%Z) text_eqb_eq) in Hin;
    [| reflexivity].
  subst n. unfold share, payments_by. apply sum_ints_ones.
Qed.

Lemma payments_per_method_covers (db : database) (p : payment)
  (m : payment_method) :
  In p (payments db) -> In m (payment_methods db) ->
  payment_method_id p = Some (method_id m) ->
  In (method_name m) (map fst (payments_per_method db)).
Proof.
  intros Hp Hm Href. unfold payments_per_method.
  apply (Permutation_in _
           (Permutation_sym (Permutation_map fst (order_by_permutation _ _)))).
  apply (group_by_covers (fun pm : payment * payment_method =>
                            method_name (snd pm))
           text_eqb _ _ text_eqb_eq (p, m)).
  apply in_join. repeat split; trivial.
  unfold references. rewrite Href. apply Z.eqb_refl.
Qed.

Lemma references_some (fk : option Z) (pk : Z) :
  references fk pk = true -> fk = Some pk.
Proof.
  unfold references. destruct fk as [i|]; [| discriminate].
  intros H. apply Z.eqb_eq in H. now subst.
Qed.

Lemma payments_per_method_from_payments (db : database)
  (name : option string) :
  In name (map fst (payments_per_method db)) ->
  exists p m,
    In p (payments db) /\ In m (payment_methods db) /\
    payment_method_id p = Some (method_id m) /\ method_name m = name.
Proof.
  unfold payments_per_method. intros H.
  apply (Permutation_in _ (Permutation_map fst (order_by_permutation _ _)))
    in H.
  apply group_by_origin in H as ([p m] & Hin & Hname).
  apply in_join in Hin as (Hp & Hm & Href).
  exists p, m. auto using references_some.
Qed.

(** X13: on a readable database /api/payment_method_popularity names
    every method name once, most used first: the names listed are exactly
    those of the payment_methods rows that some payment refers to, the
    counts are in descending order, and counts[i] is the number of
    payments whose method_id is that of a payment_methods row named
    methods[i].  Methods that share a name are counted together. *)
Theorem payment_method_counts (w : world) (db : database) :
  storage w = Serving db ->
  exists methods counts,
    fst (serve "/api/payment_method_popularity" w)
    = {| status := 200;
         body := Json (JObj [("methods", JArr (map json_text methods));
                             ("counts", JArr (map JInt counts))]) |} /\
    List.length methods = List.length counts /\
    NoDup methods /\
    descending_count counts /\
    (forall i name n,
        nth_error methods i = Some name -> nth_error counts i = Some n ->
        n = payments_by db name) /\
    (forall p m,
        In p (payments db) -> In m (payment_methods db) ->
        payment_method_id p = Some (method_id m) ->
        In (method_name m) methods) /\
    (forall name,
        In name methods ->
        exists p m,
          In p (payments db) /\ In m (payment_methods db) /\
          payment_method_id p = Some (method_id m) /\
          method_name m = name).
Proof.
  intros Hs.
  exists (map fst (payments_per_method db)), (map snd (payments_per_method db)).
  split; [now apply payment_method_popularity_serving |].
  split; [now rewrite !length_map |].
  split; [apply payments_per_method_distinct |].
  split; [apply payments_per_method_descending |].
  split.
  { intros i name n Hname Hn. apply payments_per_method_counts.
    eapply nth_error_columns; eauto. }
  split.
  - apply payments_per_method_covers.
  - apply payments_per_method_from_payments.
Qed.

Lemma payment_method_counts_witness :
  exists methods counts,
    fst (serve "/api/payment_method_popularity"
           (Sample.initial (Serving Sample.shop) Sample.offline))
    = {| status := 200;
         body := Json (JObj [("methods", JArr (map json_text methods));
                             ("counts", JArr (map JInt counts))]) |} /\
    List.length methods = List.length counts /\
    NoDup methods /\
    descending_count counts /\
    (forall i name n,
        nth_error methods i = Some name -> nth_error counts i = Some n ->
        n = payments_by Sample.shop name) /\
    (forall p m,
        In p (payments Sample.shop) -> In m (payment_methods Sample.shop) ->
        payment_method_id p = Some (method_id m) ->
        In (method_name m) methods) /\
    (forall name,
        In name methods ->
        exists p m,
          In p (payments Sample.shop) /\
          In m (payment_methods Sample.shop) /\
          payment_method_id p = Some (method_id m) /\
          method_name m = name).
Proof.
  apply (payment_method_counts
           (Sample.initial (Serving Sample.shop) Sample.offline) Sample.shop).
  reflexivity.
Defined.

(** ** Orders over time *)

Lemma orders_per_date_distinct (db : database) :
  NoDup (map fst (orders_per_date db)).
Proof.
  unfold orders_per_date.
  apply (Permutation_NoDup
           (Permutation_sym (Permutation_map fst (order_by_permutation _ _)))).
  apply (group_by_grouped _ text_eqb 0%Z _ text_eqb_eq).
Qed.

Lemma orders_per_date_total (db : database) :
  sum_ints (map snd (orders_per_date db))
  = Z.of_nat (List.length (orders db)).
Proof.
  unfold orders_per_date.
  rewrite (sum_ints_permutation _ _
             (Permutation_map snd (order_by_permutation _ _))).
  rewrite (group_by_total _ text_eqb _ (fun _ => 1%Z)); [| reflexivity].
  apply sum_ints_ones.
Qed.

(** X14: on a readable database /api/orders_over_time lists the date of
    every order, each date once, the orders without a date under null, and
    the counts add up to the number of rows of the orders table. *)
Theorem orders_over_time_partitions_orders (w : world) (db : database) :
  storage w = Serving db ->
  exists dates counts,
    fst (serve "/api/orders_over_time" w)
    = {| status := 200;
         body := Json (JObj [("dates", JArr (map json_text dates));
                             ("counts", JArr (map JInt counts))]) |} /\
    List.length dates = List.length counts /\
    NoDup dates /\
    (forall o, In o (orders db) -> In (order_date o) dates) /\
    (forall d, In d dates -> exists o, In o (orders db) /\ order_date o = d) /\
    sum_ints counts = Z.of_nat (List.length (orders db)).
Proof.
  intros Hs.
  exists (map fst (orders_per_date db)), (map snd (orders_per_date db)).
  split; [now apply orders_over_time_serving |].
  split; [now rewrite !length_map |].
  split; [apply orders_per_date_distinct |].
  split; [apply orders_per_date_covers |].
  split; [apply orders_per_date_from_orders | apply orders_per_date_total].
Qed.

Lemma orders_over_time_partitions_orders_witness :
  exists dates counts,
    fst (serve "/api/orders_over_time"
           (Sample.initial (Serving Sample.shop) Sample.offline))
    = {| status := 200;
         body := Json (JObj [("dates", JArr (map json_text dates));
                             ("counts", JArr (map JInt counts))]) |} /\
    List.length dates = List.length counts /\
    NoDup dates /\
    (forall o, In o (orders Sample.shop) -> In (order_date o) dates) /\
    (forall d, In d dates ->
       exists o, In o (orders Sample.shop) /\ order_date o = d) /\
    sum_ints counts = 3%Z.
Proof.
  apply (orders_over_time_partitions_orders
           (Sample.initial (Serving Sample.shop) Sample.offline) Sample.shop).
  reflexivity.
Defined.

(** ** Totals of the most popular products *)

Lemma product_key_eqb_eq (a b : Z * option string) :
  product_key_eqb a b = true <-> a = b.
Proof.
  unfold product_key_eqb. destruct a as [i n], b as [j m]; simpl.
  rewrite andb_true_iff, Z.eqb_eq, text_eqb_eq. split.
  - intros [-> ->]. reflexivity.
  - intros [= -> ->]. auto.
Qed.

Lemma fold_sum_overflow {R} (col : R -> option Z) (rows : list R) :
  fold_left (sum_step col) rows SumOverflow = SumOverflow.
Proof.
  induction rows as [|r rows IH]; simpl; trivial.
  unfold sum_step at 2. now destruct (col r).
Qed.

(** As long as no partial sum overflows, the aggregate is the SQL sum. *)
Lemma fold_sum_step {R} (col : R -> option Z) (rows : list R) :
  forall acc,
    fold_left (sum_step col) rows acc <> SumOverflow ->
    total_of (fold_left (sum_step col) rows acc)
    = add_nullable (total_of acc) (sum_of (map col rows)).
Proof.
  induction rows as [|r rows IH]; intros acc Hok; simpl in *.
  - now destruct acc.
  - unfold sum_step at 2 in Hok. unfold sum_step at 2.
    destruct (col r) as [x|]; simpl.
    + destruct acc as [|t|].
      * unfold checked in *. destruct (in_int64 x).
        -- rewrite (IH _ Hok). reflexivity.
        -- now rewrite fold_sum_overflow in Hok.
      * unfold checked in *. destruct (in_int64 (t + x)).
        -- rewrite (IH _ Hok). simpl.
           destruct (sum_of (map col rows)); simpl; f_equal; lia.
        -- now rewrite fold_sum_overflow in Hok.
      * now rewrite fold_sum_overflow in Hok.
    + now apply IH.
Qed.

Lemma finalize_rows (groups : list ((Z * option string) * sum_state))
  (out : list (Z * option string * option Z)) :
  finalize groups = Some out ->
  out = map (fun g => (fst g, total_of (snd g))) groups /\
  Forall (fun g => snd g <> SumOverflow) groups.
Proof.
  revert out. induction groups as [|[k s] rest IH]; simpl; intros out.
  - intros [= <-]. split; constructor.
  - destruct s; destruct (finalize rest) as [tail|]; try discriminate;
      intros [= <-]; destruct (IH tail eq_refl) as [-> Hall];
      (split; [reflexivity | constructor; [discriminate | exact Hall]]).
Qed.

Lemma most_popular_rows (db : database)
  (rows : list (Z * option string * option Z)) :
  most_popular db = Some rows ->
  NoDup (map fst rows) /\
  (forall product total,
      In (product, total) rows ->
      total = sum_of (quantities_ordered db product)).
Proof.
  unfold most_popular.
  destruct (finalize (product_sums db)) as [totals|] eqn:Hfin;
    [| discriminate].
  intros H.
  assert (rows = limit 10 (order_by (fun a b => int_leb (snd b) (snd a))
                             totals)) as -> by congruence.
  clear H. unfold limit.
  destruct (finalize_rows _ _ Hfin) as [-> Hok].
  destruct (group_by_grouped product_key product_key_eqb SumNull
              (sum_step (fun dp => quantity_ordered (fst dp)))
              product_key_eqb_eq
              (join (fun d p => references (detail_product_id d)
                                  (product_id p))
                 (order_details db) (products db)))
    as (Hnd & _ & Hfold).
  fold (product_sums db) in Hnd, Hfold.
  split.
  - rewrite <- firstn_map. apply nodup_firstn.
    apply (Permutation_NoDup
             (Permutation_sym
                (Permutation_map fst (order_by_permutation _ _)))).
    now rewrite map_map.
  - intros product total Hin. apply in_firstn in Hin.
    apply (Permutation_in _ (order_by_permutation _ _)) in Hin.
    apply in_map_iff in Hin as ([k s] & [= <- <-] & Hin).
    rewrite Forall_forall in Hok. specialize (Hok _ Hin). simpl in *.
    rewrite (Hfold k s Hin) in *.
    rewrite (fold_sum_step _ _ _ Hok). reflexivity.
Qed.

(** X15: when the statement of /api/most_popular_products succeeds, no
    product appears twice, and every total is the SQL sum of the
    quantity_ordered of the order lines joined to that product: the NULL
    lines are skipped, and a product all of whose lines are NULL has total
    null. *)
Theorem most_popular_totals_are_sums (w : world) (db : database)
  (rows : list (Z * option string * option Z)) :
  storage w = Serving db ->
  most_popular db = Some rows ->
  fst (serve "/api/most_popular_products" w)
  = {| status := 200;
       body := Json (JObj
         [("product_ids", JArr (map JInt (map (fun r => fst (fst r)) rows)));
          ("product_names",
           JArr (map json_text (map (fun r => snd (fst r)) rows)));
          ("totals", JArr (map json_int (map snd rows)))]) |} /\
  NoDup (map fst rows) /\
  (forall id name total,
      In (id, name, total) rows ->
      total = sum_of (quantities_ordered db (id, name))).
Proof.
  intros Hs Hrows.
  split; [now apply most_popular_products_serving with db |].
  destruct (most_popular_rows db rows Hrows) as [Hnd Hsum].
  split; trivial. intros id name total. apply Hsum.
Qed.

Lemma most_popular_totals_are_sums_witness :
  fst (serve "/api/most_popular_products"
         (Sample.initial (Serving Sample.shop) Sample.offline))
  = {| status := 200;
       body := Json (JObj
         [("product_ids", JArr [JInt 1; JInt 2]);
          ("product_names", JArr [JStr "kettle"; JStr "toaster"]);
          ("totals", JArr [JInt 5; JInt 4])]) |} /\
  NoDup [(1%Z, Some "kettle"); (2%Z, Some "toaster")] /\
  (forall id name total,
      In (id, name, total)
        [(1%Z, Some "kettle", Some 5%Z); (2%Z, Some "toaster", Some 4%Z)] ->
      total = sum_of (quantities_ordered Sample.shop (id, name))).
Proof.
  apply (most_popular_totals_are_sums
           (Sample.initial (Serving Sample.shop) Sample.offline) Sample.shop
           [(1%Z, Some "kettle", Some 5%Z); (2%Z, Some "toaster", Some 4%Z)]);
    reflexivity.
Defined.

(** ** The ten most popular products *)








